(** * Matrix_4x4: the 4x4 matrix constructors and the multiply reducer of
    src/main.js, embedded in Rocq.

    Numbers.  The code is written once over an abstract number structure
    [Number].  The first model takes the arithmetic as exact: the laws of a
    commutative ring are assumed only by the theorems that need them
    ([NumberLaws]), and the rationals [Qc] are the instance used to run the
    code on concrete inputs.  Rounding to single precision on a store into a
    Float32Array, NaN and the infinities are outside the first model; the
    statements made on it are about the control flow, the buffers and the
    formulas of the code.  A read of a missing element (undefined in
    JavaScript, NaN after arithmetic) is reported as [Stuck].  An argument
    that may be omitted is an [option]: [None] is undefined.

    Objects.  [multiply] writes into a buffer that it also stores into its
    argument array, so buffers live in a heap and are passed by reference.
    The constructors are given by the elements of the buffer they return.
    setView, which no statement below is about, is left out.

    Doubles.  The statements that depend on the numbers stored (what a
    multiplication returns, what setRotate returns when it skips an axis)
    are made on the second model, module [F32]: the numbers are the IEEE 754
    doubles of [SpecFloat], with their infinities, NaN and signed zeros, and
    a store into a Float32Array rounds to single precision. *)

From Stdlib Require Import ZArith QArith Qcanon Ring SpecFloat.
From stdpp Require Import base option list gmap fin_maps.

(** ** Numbers *)

Class Number := {
  num : Type;
  nzero : num;
  nunit : num;
  nadd : num -> num -> num;
  nsub : num -> num -> num;
  nmul : num -> num -> num;
  ndiv : num -> num -> num;
  nopp : num -> num;
  neqb : num -> num -> bool;   (* x == y *)
  nleb : num -> num -> bool;   (* x <= y *)
  nltb : num -> num -> bool    (* x < y  *)
}.

Declare Scope num_scope.
Delimit Scope num_scope with num.
Bind Scope num_scope with num.
Notation "0" := nzero : num_scope.
Notation "1" := nunit : num_scope.
Infix "+" := nadd : num_scope.
Infix "-" := nsub : num_scope.
Infix "*" := nmul : num_scope.
Infix "/" := ndiv : num_scope.
Notation "- x" := (nopp x) : num_scope.
Infix "==" := neqb (at level 70, no associativity) : num_scope.
Infix "<=?" := nleb : num_scope.
Infix "<?" := nltb : num_scope.

(** The laws the algebraic theorems rely on. *)
Class NumberLaws (N : Number) : Prop := {
  num_ring : ring_theory nzero nunit nadd nmul nsub nopp (@eq num);
  num_one_not_zero : nunit <> nzero;
  neqb_eq : forall x y : num, neqb x y = true <-> x = y;
  nltb_0_2 : nltb nzero (nadd nunit nunit) = true   (* 0 < 2 *)
}.

(** The host objects the source reads: [Math] and [window]. *)
Class Host (N : Number) := {
  Math_PI : num;
  Math_sin : num -> num;
  Math_cos : num -> num;
  Math_atan : num -> num;
  window_innerHeight : num
}.

(** ** Results of a call *)

Inductive error :=
  | VisibilityAreaZero    (* Error('The visibility area is zero') *)
  | DistanceNotPositive   (* Error('Distance to near or far point is less
                             than zero') *)
  | GuardThrow.           (* the statement [throw new console.error(..)] of
                             multiply's guard: the call ends there *)

Inductive result (A : Type) :=
  | Ret (a : A)
  | Throw (e : error)
  | Stuck.                (* an operand was a missing element *)
Arguments Ret {A} a.
Arguments Throw {A} e.
Arguments Stuck {A}.

#[global] Instance result_ret : MRet result := fun A a => Ret a.
#[global] Instance result_bind : MBind result := fun A B f r =>
  match r with
  | Ret a => f a
  | Throw e => Throw e
  | Stuck => Stuck
  end.

Definition of_option {A} (o : option A) : result A :=
  match o with
  | Some a => Ret a
  | None => Stuck
  end.

(** [for (let i = lo; i < lo + count; i++) body] over a state [S].  The
    bounds of the two loops of the source do not change while they run. *)
Fixpoint for_loop {S} (lo count : nat) (body : nat -> S -> result S) (s : S)
  : result S :=
  match count with
  | O => Ret s
  | Datatypes.S count' =>
      s' ← body lo s; for_loop (Datatypes.S lo) count' body s'
  end.

(** ** The heap of buffers *)

Definition loc := positive.

(** A Float32Array or Array of numbers, by its elements. *)
Abbreviation buffer := (list num).

Abbreviation heap := (gmap loc buffer).

Section Model.
Context {N : Number} {H : Host N}.

(** Small integer literals of the source. *)
Fixpoint lit_pos (p : positive) : num :=
  match p with
  | xH => 1
  | xO p' => let h := lit_pos p' in h + h
  | xI p' => let h := lit_pos p' in h + h + 1
  end%num.

Definition lit (z : Z) : num :=
  match z with
  | Z0 => 0
  | Zpos p => lit_pos p
  | Zneg p => - lit_pos p
  end%num.

(** [new Float32Array(16)]: sixteen zeros. *)
Definition zeros16 : buffer := replicate 16 0%num.

Definition alloc (b : buffer) (h : heap) : loc * heap :=
  let l := fresh (dom h) in (l, <[l := b]> h).

(** [matrix[n][i]], where [matrix] is the array of references. *)
Definition get (h : heap) (matrix : list loc) (n i : nat) : result num :=
  of_option (l ← matrix !! n; b ← h !! l; b !! i).

(** [mat[i] = v] on a typed array: an index out of range is ignored. *)
Definition set (mat : loc) (i : nat) (v : num) (h : heap) : heap :=
  alter (<[i := v]>) mat h.

(** ** multiply (src/main.js, lines 181-195) *)

(** The right-hand side of lines 187-190, for the output column starting at
    [c] (0, 4, 8 or 12):
    [matrix[n][i] * matrix[n+1][c] + matrix[n][i+4] * matrix[n+1][c+1]
     + matrix[n][i+8] * matrix[n+1][c+2] + matrix[n][i+12] * matrix[n+1][c+3]]. *)
Definition entry (h : heap) (matrix : list loc) (n i c : nat) : result num :=
  a0 ← get h matrix n i;        b0 ← get h matrix (n + 1) c;
  a1 ← get h matrix n (i + 4);  b1 ← get h matrix (n + 1) (c + 1);
  a2 ← get h matrix n (i + 8);  b2 ← get h matrix (n + 1) (c + 2);
  a3 ← get h matrix n (i + 12); b3 ← get h matrix (n + 1) (c + 3);
  Ret (a0 * b0 + a1 * b1 + a2 * b2 + a3 * b3)%num.

(** The body of the inner loop: four stores into [mat], each computed from
    the heap as the stores before it left it. *)
Definition row (matrix : list loc) (mat : loc) (n i : nat) (h : heap)
  : result heap :=
  v ← entry h matrix n i 0;  let h := set mat i v h in
  v ← entry h matrix n i 4;  let h := set mat (i + 4) v h in
  v ← entry h matrix n i 8;  let h := set mat (i + 8) v h in
  v ← entry h matrix n i 12; let h := set mat (i + 12) v h in
  Ret h.

(** The body of the outer loop: the inner loop, then [matrix[n + 1] = mat]
    (always within the array: [n + 1 <= matrix.length - 1]). *)
Definition fold_step (mat : loc) (n : nat) (s : list loc * heap)
  : result (list loc * heap) :=
  let '(matrix, h) := s in
  h ← for_loop 0 4 (row matrix mat n) h;
  Ret (<[n + 1 := mat]> matrix, h).

(** [matrix < 2] compares an array with a number.  The array is converted to
    a primitive: the string of its elements joined by commas, each element
    (a buffer) being joined in the same way.  That string is converted to a
    number: the empty string gives 0, the text of one number gives that
    number, a text with a comma gives NaN; a comparison with NaN is false.
    [None] stands for NaN. *)
Definition array_to_number (matrix : list loc) (h : heap) : option num :=
  match matrix with
  | [] => Some 0%num
  | [l] =>
      match h !! l with
      | Some [] => Some 0%num
      | Some [v] => Some v
      | _ => None
      end
  | _ => None
  end.

Definition guard (matrix : list loc) (h : heap) : bool :=
  match array_to_number matrix h with
  | Some v => (v <? lit 2)%num
  | None => false
  end.

(** [matrix.length - 1] is -1 for the empty array; the loop then runs no
    iteration, as with the truncated subtraction here. *)
Definition multiply (matrix : list loc) (h : heap) : result (loc * heap) :=
  if guard matrix h then Throw GuardThrow else
  let '(mat, h) := alloc zeros16 h in
  '(_, h) ← for_loop 0 (length matrix - 1) (fold_step mat) (matrix, h);
  Ret (mat, h).

(** A call [multiply(m0, ..., mk)] whose arguments are distinct objects: the
    buffers are stored at the addresses 1, 2, ... of an otherwise empty heap
    and the returned buffer is read back. *)
Definition addresses (k : nat) : list loc := Pos.of_succ_nat <$> seq 0 k.

Definition store_all (ms : list buffer) : heap :=
  list_to_map (zip (addresses (length ms)) ms).

Definition multiply_values (ms : list buffer) : result buffer :=
  '(mat, h) ← multiply (addresses (length ms)) (store_all ms);
  of_option (h !! mat).

(** ** The constructors *)

(** setIdentity (lines 8-14). *)
Definition setIdentity : buffer :=
  [1; 0; 0; 0;
   0; 1; 0; 0;
   0; 0; 1; 0;
   0; 0; 0; 1]%num.

(** setOrtogonalProjection (lines 26-37). *)
Definition setOrtogonalProjection (left right top bottom near far : num)
  : result buffer :=
  if (left == right)%num || (top == bottom)%num || (near == far)%num
  then Throw VisibilityAreaZero
  else
    let width := (right - left)%num in
    let height := (top - bottom)%num in
    let depth := (far - near)%num in
    Ret [lit 2 / width; 0; 0; 0;
         0; lit 2 / height; 0; 0;
         0; 0; lit (-2) / depth; 0;
         (- (right + left)) * width; (- (top + bottom)) * height;
           (- (far + near)) * depth; 1]%num.

(** A parameter with a default value: the default replaces an omitted
    (undefined) argument. *)
Definition dflt (d : num) (x : option num) : num := default d x.

Definition setOrtogonalProjection_args
    (left right top bottom near far : option num) : result buffer :=
  setOrtogonalProjection (dflt (lit (-1)) left) (dflt 1%num right)
    (dflt 1%num top) (dflt (lit (-1)) bottom) (dflt 0%num near)
    (dflt 1%num far).

(** setPerspectiveProjection (lines 47-60). *)
Definition setPerspectiveProjection (fov aspect near far : num)
  : result buffer :=
  if (fov <=? 0)%num || (near == far)%num || (aspect == 0)%num
  then Throw VisibilityAreaZero
  else if (near <=? 0)%num || (far <=? 0)%num
  then Throw DistanceNotPositive
  else
    let angle := (Math_PI * fov / lit 180 / lit 2)%num in
    let ctgAngle := (Math_cos angle / Math_sin angle)%num in
    let depthValue := (1 / (far - near))%num in
    Ret [ctgAngle / aspect; 0; 0; 0;
         0; ctgAngle; 0; 0;
         0; 0; (- (far + near)) * depthValue; lit (-1);
         0; 0; lit (-2) * near * far * depthValue; 0]%num.

Definition fov_default : num :=
  ((lit 180
    * (lit 2 * Math_atan (window_innerHeight / lit 2 / window_innerHeight)))
   / Math_PI)%num.

Definition setPerspectiveProjection_args (fov aspect near far : option num)
  : result buffer :=
  setPerspectiveProjection (dflt fov_default fov) (dflt 1%num aspect)
    (dflt 1%num near) (dflt (lit 10) far).

(** setTranslate (lines 108-114). *)
Definition setTranslate (x y z : num) : buffer :=
  [1; 0; 0; 0;
   0; 1; 0; 0;
   0; 0; 1; 0;
   x; y; z; 1]%num.

(** setScale (lines 168-174). *)
Definition setScale (x y z : num) : buffer :=
  [x; 0; 0; 0;
   0; y; 0; 0;
   0; 0; z; 0;
   0; 0; 0; 1]%num.

(** [if (x)] on an argument that may be omitted: true when [x] is given and
    is not zero. *)
Definition truthy (x : option num) : bool :=
  match x with
  | Some v => negb (v == 0)%num
  | None => false
  end.

(** The number passed; it is read only where the argument is truthy. *)
Definition value (x : option num) : num := default 0%num x.

(** The three array literals of setRotate, from the sine and the cosine. *)
Definition rotX (sin cos : num) : buffer :=
  [1; 0; 0; 0;
   0; cos; sin; 0;
   0; - sin; cos; 0;
   0; 0; 0; 1]%num.

Definition rotY (sin cos : num) : buffer :=
  [cos; 0; - sin; 0;
   0; 1; 0; 0;
   sin; 0; cos; 0;
   0; 0; 0; 1]%num.

Definition rotZ (sin cos : num) : buffer :=
  [cos; sin; 0; 0;
   - sin; cos; 0; 0;
   0; 0; 1; 0;
   0; 0; 0; 1]%num.

(** [angle = Math.PI * x / 180], then the literal built from its sine and
    cosine. *)
Definition elementary (lit_of : num -> num -> buffer) (x : num) : buffer :=
  let angle := (Math_PI * x / lit 180)%num in
  let sin := Math_sin angle in
  let cos := Math_cos angle in
  lit_of sin cos.

(** setRotate (lines 123-159). *)
Definition setRotate (x y z : option num) : result buffer :=
  let mat := zeros16 in
  let mat := if truthy x then elementary rotX (value x) else mat in
  mat ←
    (if truthy y then
       let temp := elementary rotY (value y) in
       if truthy x then multiply_values [mat; temp] else Ret temp
     else Ret mat);
  mat ←
    (if truthy z then
       let temp := elementary rotZ (value z) in
       if truthy x || truthy y then multiply_values [mat; temp] else Ret temp
     else Ret mat);
  Ret mat.

End Model.

(** ** The product the specification describes *)

Section Product.
Context {N : Number}.

(** Element [i] of a matrix (a missing element counts as 0 here; the
    theorems only use it on 16-element buffers). *)
Definition elt (m : buffer) (i : nat) : num := nth i m 0%num.

(** Output index [i + 4 c] combines [left[i]], [left[i+4]], [left[i+8]],
    [left[i+12]] weighted by [right[4c .. 4c+3]]. *)
Definition product_entry (left right : buffer) (k : nat) : num :=
  let i := (k mod 4)%nat in
  let c := (4 * (k / 4))%nat in
  (elt left i * elt right c + elt left (i + 4) * elt right (c + 1)
   + elt left (i + 8) * elt right (c + 2)
   + elt left (i + 12) * elt right (c + 3))%num.

Definition product (left right : buffer) : buffer :=
  product_entry left right <$> seq 0 16.

(** result = M0, then result = result.M1, then result = result.M2, ... *)
Definition chain (m0 : buffer) (rest : list buffer) : buffer :=
  fold_left product rest m0.

(** A point [(x, y, z, 1)] sent through a matrix stored column by column. *)
Definition apply_x (m : buffer) (x y z : num) : num :=
  (elt m 0 * x + elt m 4 * y + elt m 8 * z + elt m 12)%num.
Definition apply_y (m : buffer) (x y z : num) : num :=
  (elt m 1 * x + elt m 5 * y + elt m 9 * z + elt m 13)%num.
Definition apply_z (m : buffer) (x y z : num) : num :=
  (elt m 2 * x + elt m 6 * y + elt m 10 * z + elt m 14)%num.

(** The last column of an affine matrix: indices 3, 7, 11 hold 0 and index
    15 holds 1. *)
Definition affine_last_column (m : buffer) : Prop :=
  m !! 3%nat = Some 0%num /\ m !! 7%nat = Some 0%num
  /\ m !! 11%nat = Some 0%num /\ m !! 15%nat = Some 1%num.

End Product.

(** ** Vocabulary of the statements *)

Section Vocabulary.
Context {N : Number} {H : Host N}.
Implicit Types (h : heap) (matrix : list loc) (mat l : loc).

(** A 16-element matrix stored at [l]. *)
Definition matrix_at h l : Prop := ∃ b, h !! l = Some b ∧ length b = 16.

(** Every argument of the call is a 16-element matrix of the heap. *)
Definition matrices h matrix : Prop := Forall (matrix_at h) matrix.

(** What the stores into [mat] leave alone: every other buffer, and the
    size of [mat]. *)
Definition only_writes mat h h' : Prop :=
  (∀ l, l ≠ mat → h' !! l = h !! l) ∧ (matrix_at h mat → matrix_at h' mat).

(** The state the outer loop keeps: the array has its length, its elements
    and [mat] are 16-element matrices, and only [mat] was written. *)
Definition fold_invariant mat (len : nat) h (s : list loc * heap) : Prop :=
  length s.1 = len ∧ matrices s.2 s.1 ∧ matrix_at s.2 mat
  ∧ only_writes mat h s.2.

(** The clipping volume of the orthographic projection is degenerate. *)
Definition zero_volume (left right top bottom near far : num) : Prop :=
  left = right ∨ top = bottom ∨ near = far.

(** The first check of the perspective projection fails. *)
Definition zero_view (fov aspect near far : num) : Prop :=
  (fov <=? 0)%num = true ∨ near = far ∨ aspect = 0%num.

(** The second check of the perspective projection fails. *)
Definition bad_distance (near far : num) : Prop :=
  (near <=? 0)%num = true ∨ (far <=? 0)%num = true.

End Vocabulary.

(** ** The rationals as numbers *)

Definition Qc_leb (x y : Qc) : bool := Qle_bool x y.
Definition Qc_ltb (x y : Qc) : bool := negb (Qle_bool y x).

#[global] Instance QcNumber : Number := {
  num := Qc;
  nzero := 0%Qc;
  nunit := 1%Qc;
  nadd := Qcplus;
  nsub := Qcminus;
  nmul := Qcmult;
  ndiv := Qcdiv;
  nopp := Qcopp;
  neqb := Qc_eq_bool;
  nleb := Qc_leb;
  nltb := Qc_ltb
}.

(** A rational stand-in for the host, exact on quarter turns: [Math_PI] is
    180, so that an angle is its measure in degrees, and the sine and the
    cosine are those of the multiples of 90.  At the other angles, whose sine
    and cosine are not rational, they answer as at the angle 0; nothing below
    is evaluated there. *)
Definition quarter (a : Qc) : option Z :=
  let q := (a / Q2Qc 90)%Qc in
  if (Zpos (Qden q) =? 1)%Z then Some (Qnum q mod 4)%Z else None.

Definition Qc_sin (a : Qc) : Qc :=
  match quarter a with
  | Some 1%Z => 1%Qc
  | Some 3%Z => (- 1)%Qc
  | _ => 0%Qc
  end.

Definition Qc_cos (a : Qc) : Qc :=
  match quarter a with
  | Some 1%Z => 0%Qc
  | Some 2%Z => (- 1)%Qc
  | Some 3%Z => 0%Qc
  | _ => 1%Qc
  end.

#[global] Instance QcHost : Host QcNumber := {
  Math_PI := Q2Qc 180;
  Math_sin := Qc_sin;
  Math_cos := Qc_cos;
  Math_atan := fun _ => 0%Qc;
  window_innerHeight := Q2Qc 600
}.

(** A rational from an integer, and a matrix of rationals from integers. *)
Definition qz (z : Z) : Qc := Q2Qc (inject_Z z).
Definition qmat (zs : list Z) : list Qc := qz <$> zs.

(** Three matrices in the heap, at the addresses 1, 2 and 3. *)
Definition three_matrices : list (list Qc) :=
  [setIdentity; setIdentity;
   qmat [2; 0; 0; 0; 3; 1; 0; 0; 0; 0; 1; 0; 0; 0; 0; 1]%Z].

(** ** Doubles, and stores into a Float32Array *)

(** A JavaScript number: an IEEE 754 binary64 value, with the operations
    of [SpecFloat] at precision 53 and maximal exponent 1024.  [==], [<=]
    and [<] are the IEEE comparisons: false on NaN, and [0 == -0]. *)
Definition Float64 : Number := {|
  num := spec_float;
  nzero := S754_zero false;
  nunit := S754_finite false 4503599627370496 (-52);
  nadd := SFadd 53 1024;
  nsub := SFsub 53 1024;
  nmul := SFmul 53 1024;
  ndiv := SFdiv 53 1024;
  nopp := SFopp;
  neqb := SFeqb;
  nleb := SFleb;
  nltb := SFltb
|}.

(** The conversion a store into a Float32Array applies ([Math.fround]). *)
Class Rounding (N : Number) := {
  fround : num -> num
}.

(** A double rounded to the nearest single (ties to even, overflow to an
    infinity, underflow to a subnormal or a zero), kept as a double. *)
Definition round_single (x : spec_float) : spec_float :=
  match x with
  | S754_finite s m e =>
      match binary_round 24 128 s m e with
      | S754_finite s' m' e' => binary_round 53 1024 s' m' e'
      | y => y
      end
  | _ => x
  end.

#[global] Instance Float64_rounding : Rounding Float64 := {
  fround := round_single
}.

(** A value a double holds: a mantissa and an exponent in range. *)
Definition double (x : spec_float) : Prop := valid_binary 53 1024 x = true.

(** Neither an infinity nor NaN. *)
Definition finite (x : spec_float) : Prop :=
  match x with
  | S754_zero _ | S754_finite _ _ _ => True
  | _ => False
  end.

Definition is_zero (x : spec_float) : Prop :=
  match x with
  | S754_zero _ => True
  | _ => False
  end.

(** A value an element of a Float32Array holds: the store leaves it as it
    is. *)
Definition single (x : spec_float) : Prop := round_single x = x.

(** The same double, or two zeros (which may differ in sign). *)
Definition same_number (x y : spec_float) : Prop :=
  x = y ∨ (is_zero x ∧ is_zero y).

(** Element by element: the same doubles up to the sign of a zero, and so
    equal under [==]. *)
Definition equal_elements (r m : list spec_float) : Prop :=
  Forall2 (λ x y, same_number x y ∧ SFeqb x y = true) r m.

(** Element by element: the same doubles up to the sign of a zero. *)
Definition same_elements (r m : list spec_float) : Prop :=
  Forall2 same_number r m.

(** The last column of an affine matrix of doubles: zeros at the indices
    3, 7 and 11, and 1 at the index 15. *)
Definition affine_doubles (m : list spec_float) : Prop :=
  is_zero (nth 3 m S754_nan) ∧ is_zero (nth 7 m S754_nan)
  ∧ is_zero (nth 11 m S754_nan)
  ∧ nth 15 m S754_nan = S754_finite false 4503599627370496 (-52).

Module F32.
Section Model.
Context {N : Number} {R : Rounding N} {H : Host N}.

(** [mat[i] = v] on a Float32Array: the value is rounded to single
    precision; an index out of range is ignored. *)
Definition set (mat : loc) (i : nat) (v : num) (h : heap) : heap :=
  alter (<[i := fround v]>) mat h.

(** The body of the inner loop of multiply (lines 187-190). *)
Definition row (matrix : list loc) (mat : loc) (n i : nat) (h : heap)
  : result heap :=
  v ← entry h matrix n i 0;  let h := set mat i v h in
  v ← entry h matrix n i 4;  let h := set mat (i + 4) v h in
  v ← entry h matrix n i 8;  let h := set mat (i + 8) v h in
  v ← entry h matrix n i 12; let h := set mat (i + 12) v h in
  Ret h.

(** The body of the outer loop, with [matrix[n + 1] = mat] (line 192). *)
Definition fold_step (mat : loc) (n : nat) (s : list loc * heap)
  : result (list loc * heap) :=
  let '(matrix, h) := s in
  h ← for_loop 0 4 (row matrix mat n) h;
  Ret (<[n + 1 := mat]> matrix, h).

(** multiply (lines 181-195); [mat] is a Float32Array. *)
Definition multiply (matrix : list loc) (h : heap) : result (loc * heap) :=
  if guard matrix h then Throw GuardThrow else
  let '(mat, h) := alloc zeros16 h in
  '(_, h) ← for_loop 0 (length matrix - 1) (fold_step mat) (matrix, h);
  Ret (mat, h).

(** A call of multiply whose arguments are distinct objects. *)
Definition multiply_values (ms : list buffer) : result buffer :=
  '(mat, h) ← multiply (addresses (length ms)) (store_all ms);
  of_option (h !! mat).

(** setIdentity (lines 8-14): the literal, stored into a Float32Array. *)
Definition setIdentity : buffer :=
  fround <$> [1; 0; 0; 0;
              0; 1; 0; 0;
              0; 0; 1; 0;
              0; 0; 0; 1]%num.

(** setTranslate (lines 108-114) and setScale (lines 168-174): the
    literal, stored into a Float32Array. *)
Definition setTranslate (x y z : num) : buffer :=
  fround <$> [1; 0; 0; 0;
              0; 1; 0; 0;
              0; 0; 1; 0;
              x; y; z; 1]%num.

Definition setScale (x y z : num) : buffer :=
  fround <$> [x; 0; 0; 0;
              0; y; 0; 0;
              0; 0; z; 0;
              0; 0; 0; 1]%num.

(** [if (x)]: false when [x] is omitted, zero or NaN ([x == x] is false
    just on NaN). *)
Definition truthy (x : option num) : bool :=
  match x with
  | Some v => negb (v == 0)%num && (v == v)%num
  | None => false
  end.

(** setRotate (lines 123-159).  The three literals are plain arrays: their
    elements are not rounded.  What multiply returns is a Float32Array. *)
Definition setRotate (x y z : option num) : result buffer :=
  let mat := zeros16 in
  let mat := if truthy x then elementary rotX (value x) else mat in
  mat ←
    (if truthy y then
       let temp := elementary rotY (value y) in
       if truthy x then multiply_values [mat; temp] else Ret temp
     else Ret mat);
  mat ←
    (if truthy z then
       let temp := elementary rotZ (value z) in
       if truthy x || truthy y then multiply_values [mat; temp] else Ret temp
     else Ret mat);
  Ret mat.

(** The product of two matrices as one pass of multiply computes and stores
    it: each element is rounded once, after the three additions. *)
Definition product (left right : buffer) : buffer :=
  (λ k, fround (product_entry left right k)) <$> seq 0 16.

(** One store of lines 187-190 when the left operand [matrix[n]] is the
    buffer [mat] being written: element [k] becomes the rounded entry [k]
    of the product of the buffer as it is now by [c]. *)
Definition store_entry (c m : buffer) (k : nat) : buffer :=
  <[k := fround (product_entry m c k)]> m.

(** The sixteen stores of one pass, in the order of the two loops. *)
Definition store_order : list nat :=
  [0; 4; 8; 12; 1; 5; 9; 13; 2; 6; 10; 14; 3; 7; 11; 15].

(** A pass of the outer loop from the second on: the accumulator is
    multiplied by [c] in place. *)
Definition inplace_pass (m c : buffer) : buffer :=
  fold_left (store_entry c) store_order m.

(** The buffers [cs] are the 16-element matrices stored at [ls]. *)
Definition stored (h : heap) (ls : list loc) (cs : list buffer) : Prop :=
  Forall2 (λ l c, h !! l = Some c ∧ length c = 16) ls cs.

End Model.
End F32.




(** A double from an integer. *)
Definition fz (z : Z) : spec_float := binary_normalize 53 1024 z 0 false.

(** * Theorems *)

(** ** Loops and results *)

Lemma bind_Ret {A B} (f : A → result B) (a : A) : Ret a ≫= f = f a.
Proof. reflexivity. Qed.

(** A loop whose body always returns and keeps an invariant returns, and
    the invariant holds at the end. *)
Lemma for_loop_invariant {S} (P : S → Prop) (body : nat → S → result S) :
  ∀ count lo s,
    P s →
    (∀ i s, lo ≤ i < lo + count → P s → ∃ s', body i s = Ret s' ∧ P s') →
    ∃ s', for_loop lo count body s = Ret s' ∧ P s'.
Proof.
  induction count as [|count IH]; intros lo s Hs Hbody; simpl.
  - eauto.
  - destruct (Hbody lo s) as (s1 & -> & Hs1); [lia | done |].
    rewrite bind_Ret. apply IH; [done |].
    intros i s2 Hi. apply Hbody. lia.
Qed.

(** ** Reads and stores *)

Section HeapFacts.
Context {N : Number}.
Implicit Types (h : heap) (matrix : list loc) (mat l : loc) (b : buffer).

Lemma only_writes_refl mat h : only_writes mat h h.
Proof. by split. Qed.

Lemma only_writes_trans mat h1 h2 h3 :
  only_writes mat h1 h2 → only_writes mat h2 h3 → only_writes mat h1 h3.
Proof.
  intros [H1 H1'] [H2 H2']. split; [|auto].
  intros l Hl. rewrite H2, H1; done.
Qed.

Lemma lookup_set_ne mat i v h l : l ≠ mat → set mat i v h !! l = h !! l.
Proof. intros Hl. unfold set. by rewrite lookup_alter_ne. Qed.

Lemma lookup_set_eq mat i v h :
  set mat i v h !! mat = <[i := v]> <$> h !! mat.
Proof. unfold set. by rewrite lookup_alter_eq. Qed.

Lemma set_insert mat i v b h :
  set mat i v (<[mat := b]> h) = <[mat := <[i := v]> b]> h.
Proof. unfold set. by rewrite alter_insert_eq. Qed.

Lemma only_writes_set mat i v h : only_writes mat h (set mat i v h).
Proof.
  split.
  - intros l Hl. by apply lookup_set_ne.
  - intros (b & Hb & Hlen). exists (<[i := v]> b).
    rewrite lookup_set_eq, Hb. split; [done |]. by rewrite length_insert.
Qed.

Lemma matrices_only_writes mat h h' matrix :
  only_writes mat h h' → matrix_at h' mat → matrices h matrix →
  matrices h' matrix.
Proof.
  intros [Hne _] Hmat Hm. unfold matrices. eapply Forall_impl; [exact Hm |].
  intros l (b & Hb & Hlen). destruct (decide (l = mat)) as [-> | Hl].
  - done.
  - exists b. by rewrite Hne.
Qed.

Lemma matrices_insert mat h matrix n :
  matrix_at h mat → matrices h matrix → matrices h (<[n := mat]> matrix).
Proof. intros Hmat Hm. by apply Forall_insert. Qed.

(** A read of element [i < 16] of argument [n] succeeds. *)
Lemma get_matrices h matrix n i :
  matrices h matrix → n < length matrix → i < 16 →
  ∃ v, get h matrix n i = Ret v.
Proof.
  intros Hm Hn Hi. destruct (lookup_lt_is_Some_2 matrix n Hn) as [l Hl].
  destruct (Forall_lookup_1 _ _ _ _ Hm Hl) as (b & Hb & Hlen).
  destruct (lookup_lt_is_Some_2 b i) as [v Hv]; [lia |].
  exists v. unfold get. rewrite Hl; simpl. rewrite Hb; simpl. by rewrite Hv.
Qed.

Lemma entry_matrices h matrix n i c :
  matrices h matrix → n + 1 < length matrix → i < 4 → c ≤ 12 →
  ∃ v, entry h matrix n i c = Ret v.
Proof.
  intros Hm Hn Hi Hc. unfold entry.
  repeat match goal with
  | |- context [get h matrix ?k ?j] =>
      let v := fresh "v" in
      destruct (get_matrices h matrix k j) as [v ->]; [done | lia | lia |];
      rewrite bind_Ret
  end.
  eauto.
Qed.

(** One pass of the inner loop returns, writing only into [mat]. *)
Lemma row_matrices h matrix mat n i :
  matrices h matrix → matrix_at h mat → n + 1 < length matrix → i < 4 →
  ∃ h', row matrix mat n i h = Ret h' ∧ only_writes mat h h'.
Proof.
  intros Hm Hmat Hn Hi. unfold row.
  destruct (entry_matrices h matrix n i 0) as [v0 ->]; [done | done | done | lia |].
  rewrite bind_Ret.
  pose proof (only_writes_set mat i v0 h) as W0.
  set (h0 := set mat i v0 h) in *.
  destruct (entry_matrices h0 matrix n i 4) as [v1 ->];
    [eapply matrices_only_writes; [exact W0 | by apply W0 | done] | done | done | lia |].
  rewrite bind_Ret.
  pose proof (only_writes_trans _ _ _ _ W0 (only_writes_set mat (i + 4) v1 h0)) as W1.
  set (h1 := set mat (i + 4) v1 h0) in *.
  destruct (entry_matrices h1 matrix n i 8) as [v2 ->];
    [eapply matrices_only_writes; [exact W1 | by apply W1 | done] | done | done | lia |].
  rewrite bind_Ret.
  pose proof (only_writes_trans _ _ _ _ W1 (only_writes_set mat (i + 8) v2 h1)) as W2.
  set (h2 := set mat (i + 8) v2 h1) in *.
  destruct (entry_matrices h2 matrix n i 12) as [v3 ->];
    [eapply matrices_only_writes; [exact W2 | by apply W2 | done] | done | done | lia |].
  rewrite bind_Ret.
  eexists. split; [done |].
  exact (only_writes_trans _ _ _ _ W2 (only_writes_set mat (i + 12) v3 h2)).
Qed.

Lemma fold_step_eq mat n matrix h :
  fold_step mat n (matrix, h)
  = (h' ← for_loop 0 4 (row matrix mat n) h; Ret (<[n + 1 := mat]> matrix, h')).
Proof. reflexivity. Qed.

Lemma fold_step_invariant mat len h n s :
  n + 1 < len → fold_invariant mat len h s →
  ∃ s', fold_step mat n s = Ret s' ∧ fold_invariant mat len h s'.
Proof.
  intros Hn. destruct s as [matrix hc]. intros (Hlen & Hm & Hmat & W).
  simpl in Hlen, Hm, Hmat, W. rewrite fold_step_eq.
  destruct (for_loop_invariant
              (λ h', only_writes mat hc h') (row matrix mat n) 4 0 hc)
    as (h' & -> & W'); [apply only_writes_refl | |].
  { intros i hi Hi Wi. subst len.
    destruct (row_matrices hi matrix mat n i) as (h' & Hrow & Wr);
      [eapply matrices_only_writes; [exact Wi | by apply Wi | done] | by apply Wi | done | lia |].
    exists h'. split; [done |]. by eapply only_writes_trans. }
  rewrite bind_Ret. eexists. split; [done |].
  assert (matrix_at h' mat) as Hmat' by by apply W'.
  repeat split; simpl.
  - by rewrite length_insert.
  - apply matrices_insert; [done |]. by eapply matrices_only_writes.
  - done.
  - intros l Hl. destruct W as [W _], W' as [W' _]. by rewrite W', W.
  - done.
Qed.

(** The guard is false as soon as the only argument has two elements or
    there are two arguments. *)
Lemma guard_matrices h matrix :
  matrices h matrix → matrix ≠ [] → guard matrix h = false.
Proof.
  intros Hm Hne. unfold guard, array_to_number.
  destruct matrix as [|l [|l' matrix]]; [done | | done].
  apply Forall_inv in Hm. destruct Hm as (b & -> & Hlen).
  by destruct b as [|? [|? ?]].
Qed.

Lemma guard_nil h : guard [] h = (0 <? lit 2)%num.
Proof. reflexivity. Qed.

Lemma matrix_at_zeros16 h :
  matrix_at (<[fresh (dom h) := zeros16]> h) (fresh (dom h)).
Proof. exists zeros16. by rewrite lookup_insert_eq. Qed.

Lemma fresh_lookup h : h !! fresh (dom h) = None.
Proof. apply not_elem_of_dom, is_fresh. Qed.

(** A call on 16-element matrices, at least one, returns a new buffer and
    leaves the heap it found as it was. *)
Lemma multiply_returns h matrix :
  matrices h matrix → matrix ≠ [] →
  ∃ mat h', multiply matrix h = Ret (mat, h') ∧ mat = fresh (dom h)
    ∧ matrix_at h' mat ∧ ∀ l, l ≠ mat → h' !! l = h !! l.
Proof.
  intros Hm Hne. unfold multiply. rewrite guard_matrices by done.
  unfold alloc. set (mat := fresh (dom h)). set (h0 := <[mat := zeros16]> h).
  assert (only_writes mat h h0) as W0.
  { split; [|intros _; apply matrix_at_zeros16].
    intros l Hl. unfold h0. by rewrite lookup_insert_ne. }
  destruct (for_loop_invariant (fold_invariant mat (length matrix) h)
              (fold_step mat) (length matrix - 1) 0 (matrix, h0))
    as ([matrix' h'] & -> & Hlen & Hm' & Hmat & W).
  { repeat split; simpl; try done.
    - eapply matrices_only_writes; [exact W0 | | done].
      apply matrix_at_zeros16.
    - apply matrix_at_zeros16.
    - apply W0.
    - intros _. apply matrix_at_zeros16. }
  { intros n s Hn. apply fold_step_invariant. lia. }
  rewrite bind_Ret. exists mat, h'. repeat split; try done. apply W.
Qed.

(** ** Two arguments: the product *)

Lemma get_lookup h matrix n l b i :
  matrix !! n = Some l → h !! l = Some b →
  get h matrix n i = of_option (b !! i).
Proof. intros Hl Hb. unfold get. rewrite Hl; simpl. by rewrite Hb. Qed.

(** Lines 187-190 compute the entries of the product when the two operands
    are read from 16-element buffers [a] and [b]. *)
Lemma entry_product h matrix n la lb a b i j c :
  matrix !! n = Some la → matrix !! (n + 1) = Some lb →
  h !! la = Some a → h !! lb = Some b →
  length a = 16 → length b = 16 → i < 4 → j < 4 → c = 4 * j →
  entry h matrix n i c = Ret (product_entry a b (i + c)).
Proof.
  intros Hla Hlb Ha Hb Hlena Hlenb Hi Hj ->. unfold entry.
  rewrite !(get_lookup h matrix n la a) by done.
  rewrite !(get_lookup h matrix (n + 1) lb b) by done.
  do 17 (destruct a as [|? a]; try discriminate Hlena).
  do 17 (destruct b as [|? b]; try discriminate Hlenb).
  destruct i as [|[|[|[|i]]]]; [| | | | lia];
    (destruct j as [|[|[|[|j]]]]; [| | | | lia]); reflexivity.
Qed.

Lemma row_two hc la lb mat a b i :
  hc !! la = Some a → hc !! lb = Some b → la ≠ mat → lb ≠ mat →
  length a = 16 → length b = 16 → i < 4 →
  row [la; lb] mat 0 i hc
  = Ret (set mat (i + 12) (product_entry a b (i + 12))
          (set mat (i + 8) (product_entry a b (i + 8))
            (set mat (i + 4) (product_entry a b (i + 4))
              (set mat i (product_entry a b i) hc)))).
Proof.
  intros Ha Hb Hla Hlb Hlena Hlenb Hi. unfold row.
  rewrite (entry_product hc [la; lb] 0 la lb a b i 0 0)
    by (done || lia || by rewrite ?lookup_set_ne).
  rewrite bind_Ret.
  rewrite (entry_product _ [la; lb] 0 la lb a b i 1 4)
    by (done || lia || by rewrite ?lookup_set_ne).
  rewrite bind_Ret.
  rewrite (entry_product _ [la; lb] 0 la lb a b i 2 8)
    by (done || lia || by rewrite ?lookup_set_ne).
  rewrite bind_Ret.
  rewrite (entry_product _ [la; lb] 0 la lb a b i 3 12)
    by (done || lia || by rewrite ?lookup_set_ne).
  rewrite bind_Ret.
  by replace (i + 0) with i by lia.
Qed.

(** The sixteen stores of one pass of the outer loop fill [mat] with the
    product. *)
Lemma rows_two h la lb mat a b m :
  h !! la = Some a → h !! lb = Some b → la ≠ mat → lb ≠ mat →
  length a = 16 → length b = 16 → length m = 16 →
  for_loop 0 4 (row [la; lb] mat 0) (<[mat := m]> h)
  = Ret (<[mat := product a b]> h).
Proof.
  intros Ha Hb Hla Hlb Hlena Hlenb Hlenm.
  cbn [for_loop].
  rewrite (row_two _ la lb mat a b 0); try done; try lia;
    try (by rewrite lookup_insert_ne).
  rewrite bind_Ret, !set_insert.
  rewrite (row_two _ la lb mat a b 1); try done; try lia;
    try (by rewrite lookup_insert_ne).
  rewrite bind_Ret, !set_insert.
  rewrite (row_two _ la lb mat a b 2); try done; try lia;
    try (by rewrite lookup_insert_ne).
  rewrite bind_Ret, !set_insert.
  rewrite (row_two _ la lb mat a b 3); try done; try lia;
    try (by rewrite lookup_insert_ne).
  rewrite bind_Ret, !set_insert.
  do 17 (destruct m as [|? m]; try discriminate Hlenm).
  reflexivity.
Qed.

(** [multiply(a, b)] on two 16-element matrices returns a new buffer that
    holds the product, and changes nothing else. *)
Lemma multiply_two h la lb a b :
  h !! la = Some a → h !! lb = Some b → length a = 16 → length b = 16 →
  multiply [la; lb] h
  = Ret (fresh (dom h), <[fresh (dom h) := product a b]> h).
Proof.
  intros Ha Hb Hlena Hlenb.
  assert (∀ l x, h !! l = Some x → l ≠ fresh (dom h)) as Hfresh.
  { intros l x Hl ->. by rewrite fresh_lookup in Hl. }
  unfold multiply.
  change (guard [la; lb] h) with false. cbv iota.
  unfold alloc. cbv zeta. cbv iota beta.
  change (length [la; lb] - 1) with 1. cbn [for_loop].
  rewrite fold_step_eq.
  rewrite (rows_two h la lb _ a b zeros16) by eauto.
  reflexivity.
Qed.

Lemma store_all_two (a b : buffer) :
  store_all [a; b] !! 1%positive = Some a
  ∧ store_all [a; b] !! 2%positive = Some b.
Proof. split; reflexivity. Qed.

Lemma multiply_values_two (a b : buffer) :
  length a = 16 → length b = 16 →
  multiply_values [a; b] = Ret (product a b).
Proof.
  intros Hlena Hlenb. unfold multiply_values.
  change (addresses (length [a; b])) with [1%positive; 2%positive].
  destruct (store_all_two a b) as [Ha Hb].
  rewrite (multiply_two _ _ _ a b) by done.
  rewrite bind_Ret. cbv beta iota. by rewrite lookup_insert_eq.
Qed.

Lemma length_product (a b : buffer) : length (product a b) = 16.
Proof. reflexivity. Qed.

End HeapFacts.

(** ** The rationals satisfy the laws *)

Lemma Qc_eq_bool_iff (x y : Qc) : Qc_eq_bool x y = true ↔ x = y.
Proof.
  split; [apply Qc_eq_bool_correct |].
  intros Heq. subst. unfold Qc_eq_bool.
  destruct (Qcanon.Qc_eq_dec y y); [reflexivity | contradiction].
Qed.

Lemma Qc_laws : NumberLaws QcNumber.
Proof.
  split.
  - exact Qcrt.
  - intros Heq. pose proof (f_equal this Heq) as Hthis.
    vm_compute in Hthis. discriminate.
  - exact Qc_eq_bool_iff.
  - reflexivity.
Qed.

#[global] Existing Instance Qc_laws.

(** Equality of two rationals given in any form. *)
Ltac qc_eq := apply Qc_is_canon; vm_compute; reflexivity.

(** ** setRotate *)

Section Rotation.
Context {N : Number} {L : NumberLaws N} {H : Host N}.
Add Ring num_ring_rotation : (@num_ring N L).

Lemma truthy_zero (x : option num) :
  x = None ∨ x = Some 0%num → truthy x = false.
Proof.
  intros [-> | ->]; [done |]. simpl.
  by rewrite (proj2 (neqb_eq 0%num 0%num)).
Qed.

Lemma zeros16_not_identity : zeros16 ≠ setIdentity.
Proof.
  intros Heq. injection Heq as Heq _. by apply num_one_not_zero.
Qed.

(** The product of two affine matrices is affine. *)
Lemma product_affine (a b : buffer) :
  length a = 16 → length b = 16 →
  affine_last_column a → affine_last_column b →
  affine_last_column (product a b).
Proof.
  intros Hlena Hlenb (A3 & A7 & A11 & A15) (B3 & B7 & B11 & B15).
  do 17 (destruct a as [|? a]; try discriminate Hlena).
  do 17 (destruct b as [|? b]; try discriminate Hlenb).
  cbn in A3, A7, A11, A15, B3, B7, B11, B15. simplify_eq.
  unfold affine_last_column, product, product_entry, elt. cbn.
  repeat split; f_equal; ring.
Qed.

Lemma elementary_affine (x : num) :
  affine_last_column (elementary rotX x)
  ∧ affine_last_column (elementary rotY x)
  ∧ affine_last_column (elementary rotZ x).
Proof. by repeat split. Qed.

(** The eight cases of setRotate: which literals are built and where
    multiply is called. *)
Lemma setRotate_cases (x y z : option num) :
  let X := elementary rotX (value x) in
  let Y := elementary rotY (value y) in
  let Z := elementary rotZ (value z) in
  setRotate x y z
  = Ret match truthy x, truthy y, truthy z with
        | true, true, true => product (product X Y) Z
        | true, true, false => product X Y
        | true, false, true => product X Z
        | true, false, false => X
        | false, true, true => product Y Z
        | false, true, false => Y
        | false, false, true => Z
        | false, false, false => zeros16
        end.
Proof.
  intros X Y Z. unfold setRotate. fold X Y Z.
  destruct (truthy x), (truthy y), (truthy z); cbn [orb];
    rewrite ?bind_Ret, ?multiply_values_two, ?bind_Ret, ?multiply_values_two
      by reflexivity;
    reflexivity.
Qed.

(** C4. When none of the angles is non-zero (each is zero or omitted),
    setRotate returns the all-zero 16-element buffer, which is not the
    identity matrix. *)
Theorem setRotate_no_angle (x y z : option num) :
  x = None ∨ x = Some 0%num →
  y = None ∨ y = Some 0%num →
  z = None ∨ z = Some 0%num →
  setRotate x y z = Ret (replicate 16 0%num)
  ∧ replicate 16 0%num ≠ setIdentity.
Proof.
  intros Hx Hy Hz. split; [| apply zeros16_not_identity].
  unfold setRotate. by rewrite !truthy_zero.
Qed.

(** With a truthy angle the returned matrix has the last column of an
    affine transform. *)
Lemma setRotate_affine (x y z : option num) :
  truthy x || truthy y || truthy z = true →
  ∃ m, setRotate x y z = Ret m ∧ affine_last_column m.
Proof.
  intros Hsome. rewrite setRotate_cases.
  eexists. split; [reflexivity |].
  destruct (elementary_affine (value x)) as (HX & _ & _).
  destruct (elementary_affine (value y)) as (_ & HY & _).
  destruct (elementary_affine (value z)) as (_ & _ & HZ).
  destruct (truthy x), (truthy y), (truthy z); try discriminate Hsome;
    repeat (apply product_affine; try reflexivity); done.
Qed.

(** setIdentity, setTranslate and setScale have that last column too. *)
Lemma constructors_affine (x y z : num) :
  affine_last_column setIdentity
  ∧ affine_last_column (setTranslate x y z)
  ∧ affine_last_column (setScale x y z).
Proof. by repeat split. Qed.

End Rotation.

Lemma setRotate_no_angle_witness :
  (Some (qz 0) = None ∨ Some (qz 0) = Some 0%num)
  ∧ ((None : option Qc) = None ∨ None = Some 0%num)
  ∧ setRotate (Some (qz 0)) None None = Ret (replicate 16 0%num)
  ∧ replicate 16 0%num ≠ setIdentity.
Proof.
  assert (Some (qz 0) = None ∨ Some (qz 0) = Some 0%num) as Hzero
    by (right; reflexivity).
  assert ((None : option Qc) = None ∨ None = Some 0%num) as Hnone
    by (left; reflexivity).
  split; [exact Hzero |]. split; [exact Hnone |].
  exact (setRotate_no_angle (L := Qc_laws) _ _ _ Hzero Hnone Hnone).
Defined.

(** C5, at the call setRotate(0, 0, 0) and at the call setRotate(): the
    returned buffer holds 0 at index 15, so its last column is not that of
    an affine transform. *)
Theorem setRotate_zero_last_column :
  setRotate (Some (qz 0)) (Some (qz 0)) (Some (qz 0)) = Ret (qmat (replicate 16 0%Z))
  ∧ setRotate (N := QcNumber) None None None = Ret (qmat (replicate 16 0%Z))
  ∧ qmat (replicate 16 0%Z) !! 15%nat = Some (qz 0)
  ∧ ¬ affine_last_column (qmat (replicate 16 0%Z)).
Proof.
  repeat split; try reflexivity.
  intros (_ & _ & _ & H15). cbn in H15. inversion H15.
Qed.

(** ** multiply: inputs, argument count *)

Section MultiplyClaims.
Context {N : Number}.
Implicit Types (h : heap) (matrix : list loc).

(** C7. After a call of multiply on 16-element matrices, every buffer the
    heap held before the call, and so every argument, holds what it held
    before: the call returns a buffer that did not exist and stores only
    into it.  (The call with no argument may stop at the guard, before any
    store.) *)
Theorem multiply_inputs_unchanged h matrix :
  matrices h matrix →
  match multiply matrix h with
  | Ret (mat, h') =>
      h !! mat = None
      ∧ (∀ l b, h !! l = Some b → h' !! l = Some b)
      ∧ Forall (λ l, h' !! l = h !! l) matrix
  | Throw _ => matrix = []
  | Stuck => False
  end.
Proof.
  intros Hm. destruct (decide (matrix = [])) as [-> | Hne].
  - unfold multiply. destruct (guard [] h); [done |]. cbn.
    split; [apply fresh_lookup |]. split; [| constructor].
    intros l b Hl. rewrite lookup_insert_ne; [done |].
    intros <-. by rewrite fresh_lookup in Hl.
  - destruct (multiply_returns h matrix Hm Hne)
      as (mat & h' & -> & -> & _ & Hframe).
    assert (∀ l b, h !! l = Some b → l ≠ fresh (dom h)) as Hfresh.
    { intros l b Hl ->. by rewrite fresh_lookup in Hl. }
    split; [apply fresh_lookup |]. split.
    + intros l b Hl. rewrite Hframe; [done | by eapply Hfresh].
    + eapply Forall_impl; [exact Hm |]. intros l (b & Hl & _).
      apply Hframe. by eapply Hfresh.
Qed.

Lemma matrices_one h l (b : buffer) :
  h !! l = Some b → length b = 16 → matrices h [l].
Proof. intros Hl Hlen. constructor; [by exists b | constructor]. Qed.

(** With one argument the loop runs no iteration. *)
Lemma multiply_one_run h l (b : buffer) :
  h !! l = Some b → length b = 16 →
  multiply [l] h = Ret (fresh (dom h), <[fresh (dom h) := zeros16]> h).
Proof.
  intros Hl Hlen. unfold multiply.
  rewrite guard_matrices; [reflexivity | by eapply matrices_one | done].
Qed.

(** C10. With exactly one 16-element matrix, multiply raises no error and
    returns a buffer that did not exist before, holding sixteen zeros. *)
Theorem multiply_one h l (b : buffer) :
  h !! l = Some b → length b = 16 →
  multiply [l] h
  = Ret (fresh (dom h), <[fresh (dom h) := replicate 16 0%num]> h)
  ∧ h !! fresh (dom h) = None.
Proof.
  intros Hl Hlen. split; [by eapply multiply_one_run | apply fresh_lookup].
Qed.

(** C9, as the code has it.  With exactly one 16-element matrix the
    comparison of the argument array to 2 is false and the call returns;
    with no argument the comparison is true (the empty array converts to 0)
    and the call ends in the throw statement of the guard. *)
Theorem guard_comparison {L : NumberLaws N} h :
  (∀ l (b : buffer), h !! l = Some b → length b = 16 →
     guard [l] h = false ∧ ∃ r, multiply [l] h = Ret r)
  ∧ guard [] h = true
  ∧ multiply [] h = Throw GuardThrow.
Proof.
  assert (guard [] h = true) as Hnil by (rewrite guard_nil; apply nltb_0_2).
  split; [| split; [done |]].
  - intros l b Hl Hlen. split.
    + apply guard_matrices; [by eapply matrices_one | done].
    + rewrite (multiply_one_run h l b Hl Hlen). eauto.
  - unfold multiply. by rewrite Hnil.
Qed.

End MultiplyClaims.

Lemma multiply_inputs_unchanged_witness :
  let h := store_all three_matrices in
  let matrix := addresses 3 in
  matrices h matrix
  ∧ match multiply matrix h with
    | Ret (mat, h') =>
        h !! mat = None
        ∧ (∀ l b, h !! l = Some b → h' !! l = Some b)
        ∧ Forall (λ l, h' !! l = h !! l) matrix
    | Throw _ => matrix = []
    | Stuck => False
    end.
Proof.
  intros h matrix.
  assert (matrices h matrix) as Hm.
  { repeat constructor; eexists; split; reflexivity. }
  split; [exact Hm |]. exact (multiply_inputs_unchanged h matrix Hm).
Defined.

Lemma multiply_one_witness :
  let M : list Qc := setScale (qz 2) (qz 3) (qz 4) in
  let h : heap := {[ 1%positive := M ]} in
  h !! 1%positive = Some M ∧ length M = 16
  ∧ multiply [1%positive] h
    = Ret (fresh (dom h), <[fresh (dom h) := replicate 16 0%num]> h)
  ∧ h !! fresh (dom h) = None.
Proof.
  intros M h.
  assert (h !! 1%positive = Some M) as Hl by reflexivity.
  assert (length M = 16) as Hlen by reflexivity.
  split; [exact Hl |]. split; [exact Hlen |].
  exact (multiply_one h 1%positive M Hl Hlen).
Defined.

Lemma guard_comparison_witness :
  let M : list Qc := setIdentity in
  let h : heap := {[ 1%positive := M ]} in
  h !! 1%positive = Some M ∧ length M = 16
  ∧ guard [1%positive] h = false
  ∧ guard [] h = true
  ∧ multiply [] h = Throw GuardThrow.
Proof.
  intros M h.
  assert (h !! 1%positive = Some M) as Hl by reflexivity.
  assert (length M = 16) as Hlen by reflexivity.
  destruct (guard_comparison (L := Qc_laws) h) as (Hone & Hnil & Hthrow).
  split; [exact Hl |]. split; [exact Hlen |].
  split; [exact (proj1 (Hone 1%positive M Hl Hlen)) |].
  split; [exact Hnil | exact Hthrow].
Defined.

(** C9 as stated fails at the call with no argument: fewer than two
    matrices, and the comparison is true. *)
Lemma guard_true_without_arguments :
  length ([] : list loc) < 2
  ∧ guard (N := QcNumber) [] ∅ = true
  ∧ multiply (N := QcNumber) [] ∅ = Throw GuardThrow.
Proof. split; [simpl; lia |]. split; reflexivity. Qed.

(** C1, at the call multiply(I, I, C) with I the identity and
    C = [2,0,0,0, 3,1,0,0, 0,0,1,0, 0,0,0,1].  The fold of the product is C;
    the call returns 6 at index 4, where C holds 3: in the second pass the
    left operand is the buffer being written, and index 4 is computed from
    index 0 as already overwritten. *)
Theorem multiply_three_aliasing :
  let I : list Qc := setIdentity in
  let C := qmat [2; 0; 0; 0; 3; 1; 0; 0; 0; 0; 1; 0; 0; 0; 0; 1]%Z in
  multiply_values [I; I; C]
  = Ret (qmat [2; 0; 0; 0; 6; 1; 0; 0; 0; 0; 1; 0; 0; 0; 0; 1]%Z)
  ∧ chain I [I; C] = C
  ∧ multiply_values [I; I; C] ≠ Ret (chain I [I; C]).
Proof.
  intros I C.
  assert (multiply_values [I; I; C]
          = Ret (qmat [2; 0; 0; 0; 6; 1; 0; 0; 0; 0; 1; 0; 0; 0; 0; 1]%Z))
    as Hrun by (vm_compute; reflexivity).
  assert (chain I [I; C] = C) as Hchain by (vm_compute; reflexivity).
  split; [exact Hrun |]. split; [exact Hchain |].
  rewrite Hrun, Hchain. intros Heq. inversion Heq.
Qed.

(** ** The projections *)

Section Projections.
Context {N : Number} {L : NumberLaws N} {H : Host N}.

Lemma neqb_reflect (x y : num) : reflect (x = y) (x == y)%num.
Proof.
  destruct (x == y)%num eqn:E; constructor.
  - by apply neqb_eq.
  - intros Heq. apply neqb_eq in Heq. congruence.
Qed.

(** C6, as the code has it.  setOrtogonalProjection raises the visibility
    error exactly when left == right, top == bottom or near == far, and
    returns a matrix otherwise.  setPerspectiveProjection raises the
    visibility error exactly when fov <= 0, near == far or aspect == 0; it
    raises the distance error exactly when that first check passes and
    near <= 0 or far <= 0; it returns a matrix for all other inputs. *)
Theorem projection_errors (left right top bottom near far fov aspect : num) :
  (setOrtogonalProjection left right top bottom near far
     = Throw VisibilityAreaZero
   ↔ zero_volume left right top bottom near far)
  ∧ (¬ zero_volume left right top bottom near far →
     ∃ m, setOrtogonalProjection left right top bottom near far = Ret m
          ∧ length m = 16)
  ∧ (setPerspectiveProjection fov aspect near far = Throw VisibilityAreaZero
     ↔ zero_view fov aspect near far)
  ∧ (setPerspectiveProjection fov aspect near far = Throw DistanceNotPositive
     ↔ ¬ zero_view fov aspect near far ∧ bad_distance near far)
  ∧ (¬ zero_view fov aspect near far → ¬ bad_distance near far →
     ∃ m, setPerspectiveProjection fov aspect near far = Ret m
          ∧ length m = 16).
Proof.
  unfold setOrtogonalProjection, setPerspectiveProjection, zero_volume,
    zero_view, bad_distance.
  destruct (neqb_reflect left right), (neqb_reflect top bottom),
    (neqb_reflect near far), (neqb_reflect aspect 0%num),
    (fov <=? 0)%num, (near <=? 0)%num, (far <=? 0)%num; cbn [orb];
    repeat split;
    first [ intuition congruence | intros; eexists; split; reflexivity ].
Qed.

End Projections.

Lemma projection_errors_witness :
  ¬ zero_volume (qz 0) (qz 2) (qz 1) (qz (-1)) (qz 1) (qz 10)
  ∧ ¬ zero_view (qz 90) (qz 1) (qz 1) (qz 10)
  ∧ ¬ bad_distance (qz 1) (qz 10)
  ∧ (∃ m, setOrtogonalProjection (qz 0) (qz 2) (qz 1) (qz (-1)) (qz 1) (qz 10)
          = Ret m ∧ length m = 16)
  ∧ (∃ m, setPerspectiveProjection (qz 90) (qz 1) (qz 1) (qz 10) = Ret m
          ∧ length m = 16).
Proof.
  assert (¬ zero_volume (qz 0) (qz 2) (qz 1) (qz (-1)) (qz 1) (qz 10)) as Hv.
  { intros [Heq | [Heq | Heq]]; inversion Heq. }
  assert (¬ zero_view (qz 90) (qz 1) (qz 1) (qz 10)) as Hw.
  { intros [Heq | [Heq | Heq]]; inversion Heq. }
  assert (¬ bad_distance (qz 1) (qz 10)) as Hd.
  { intros [Heq | Heq]; inversion Heq. }
  destruct (projection_errors (L := Qc_laws)
              (qz 0) (qz 2) (qz 1) (qz (-1)) (qz 1) (qz 10) (qz 90) (qz 1))
    as (_ & Hortho & _ & _ & Hpersp).
  split; [exact Hv |]. split; [exact Hw |]. split; [exact Hd |].
  split; [exact (Hortho Hv) | exact (Hpersp Hw Hd)].
Defined.

(** C6 as stated fails at setPerspectiveProjection(0, 1, -1, 10): near <= 0,
    and the error raised is the visibility error, not the distance error. *)
Lemma perspective_checks_in_order :
  (qz (-1) <=? 0)%num = true
  ∧ setPerspectiveProjection (qz 0) (qz 1) (qz (-1)) (qz 10)
    = Throw VisibilityAreaZero
  ∧ setPerspectiveProjection (qz 0) (qz 1) (qz (-1)) (qz 10)
    ≠ Throw DistanceNotPositive.
Proof. repeat split; try reflexivity. intros Heq. inversion Heq. Qed.

(** With the default volume the sum right + left is 0 and the depth is 1,
    so the translation terms are those of the usual matrix: the edges of the
    volume go to -1 and 1. *)
Lemma setOrtogonalProjection_default_volume :
  ∃ m : list Qc,
    setOrtogonalProjection_args None None None None None None = Ret m
    ∧ apply_x m (qz (-1)) (qz 0) (qz 0) = qz (-1)
    ∧ apply_x m (qz 1) (qz 0) (qz 0) = qz 1
    ∧ apply_y m (qz 0) (qz (-1)) (qz 0) = qz (-1)
    ∧ apply_y m (qz 0) (qz 1) (qz 0) = qz 1
    ∧ apply_z m (qz 0) (qz 0) (qz 0) = qz (-1)
    ∧ apply_z m (qz 0) (qz 0) (qz (-1)) = qz 1.
Proof. eexists. split; [reflexivity |]. repeat split; qc_eq. Qed.

(** C2, at the call setOrtogonalProjection(0, 2, 1, -1, 0, 1).  The x axis
    is scaled by 2 / width = 1, and the translation term at index 12 is
    -(right + left) * width = -4: x = left goes to -4 and x = right to -2,
    not to -1 and 1. *)
Theorem setOrtogonalProjection_edges :
  ∃ m : list Qc,
    setOrtogonalProjection (qz 0) (qz 2) (qz 1) (qz (-1)) (qz 0) (qz 1) = Ret m
    ∧ elt m 0 = (lit 2 / (qz 2 - qz 0))%num
    ∧ elt m 0 = qz 1
    ∧ elt m 12 = qz (-4)
    ∧ apply_x m (qz 0) (qz 0) (qz 0) = qz (-4)
    ∧ apply_x m (qz 2) (qz 0) (qz 0) = qz (-2)
    ∧ qz (-4) ≠ qz (-1) ∧ qz (-2) ≠ qz 1.
Proof.
  eexists. split; [reflexivity |].
  repeat split; try qc_eq; intros Heq; inversion Heq.
Qed.

(** * The model with rounded stores *)

(** ** multiply on any number of matrices *)

Section RoundedStores.
Context {N : Number} {R : Rounding N}.
Implicit Types (h : heap) (matrix : list loc) (mat l : loc).

Lemma rounded_set_insert mat i v (b : buffer) h :
  F32.set mat i v (<[mat := b]> h) = <[mat := <[i := fround v]> b]> h.
Proof. unfold F32.set. by rewrite alter_insert_eq. Qed.

Lemma rounded_fold_step_eq mat n matrix h :
  F32.fold_step mat n (matrix, h)
  = (h' ← for_loop 0 4 (F32.row matrix mat n) h;
     Ret (<[n + 1 := mat]> matrix, h')).
Proof. reflexivity. Qed.

Lemma length_rounded_store_entry (c m : buffer) k :
  length (F32.store_entry c m k) = length m.
Proof. unfold F32.store_entry. by rewrite length_insert. Qed.

Lemma length_rounded_inplace_pass (m c : buffer) :
  length (F32.inplace_pass m c) = length m.
Proof.
  unfold F32.inplace_pass. generalize F32.store_order. intros ks. revert m.
  induction ks as [|k ks IH]; intros m; [done |].
  cbn [fold_left]. by rewrite IH, length_rounded_store_entry.
Qed.

(** A pass of the inner loop whose left operand is another buffer. *)
Lemma rounded_row_distinct h matrix mat n la lb (a b m : buffer) i :
  matrix !! n = Some la → matrix !! (n + 1) = Some lb →
  la ≠ mat → lb ≠ mat → h !! la = Some a → h !! lb = Some b →
  length a = 16 → length b = 16 → i < 4 →
  F32.row matrix mat n i (<[mat := m]> h)
  = Ret (<[mat := <[i + 12 := fround (product_entry a b (i + 12))]>
                  (<[i + 8 := fround (product_entry a b (i + 8))]>
                    (<[i + 4 := fround (product_entry a b (i + 4))]>
                      (<[i := fround (product_entry a b i)]> m)))]> h).
Proof.
  intros Hla Hlb Hnea Hneb Ha Hb Hlena Hlenb Hi. unfold F32.row.
  rewrite (entry_product _ matrix n la lb a b i 0 0)
    by (done || lia || by rewrite lookup_insert_ne).
  rewrite bind_Ret, rounded_set_insert.
  rewrite (entry_product _ matrix n la lb a b i 1 4)
    by (done || lia || by rewrite lookup_insert_ne).
  rewrite bind_Ret, rounded_set_insert.
  rewrite (entry_product _ matrix n la lb a b i 2 8)
    by (done || lia || by rewrite lookup_insert_ne).
  rewrite bind_Ret, rounded_set_insert.
  rewrite (entry_product _ matrix n la lb a b i 3 12)
    by (done || lia || by rewrite lookup_insert_ne).
  rewrite bind_Ret, rounded_set_insert.
  by replace (i + 0) with i by lia.
Qed.

Lemma rounded_pass_distinct h matrix mat n la lb (a b m : buffer) :
  matrix !! n = Some la → matrix !! (n + 1) = Some lb →
  la ≠ mat → lb ≠ mat → h !! la = Some a → h !! lb = Some b →
  length a = 16 → length b = 16 → length m = 16 →
  F32.fold_step mat n (matrix, <[mat := m]> h)
  = Ret (<[n + 1 := mat]> matrix, <[mat := F32.product a b]> h).
Proof.
  intros Hla Hlb Hnea Hneb Ha Hb Hlena Hlenb Hlenm.
  rewrite rounded_fold_step_eq. cbn [for_loop].
  rewrite (rounded_row_distinct h matrix mat n la lb a b _ 0)
    by (done || lia).
  rewrite bind_Ret.
  rewrite (rounded_row_distinct h matrix mat n la lb a b _ 1)
    by (done || lia).
  rewrite bind_Ret.
  rewrite (rounded_row_distinct h matrix mat n la lb a b _ 2)
    by (done || lia).
  rewrite bind_Ret.
  rewrite (rounded_row_distinct h matrix mat n la lb a b _ 3)
    by (done || lia).
  rewrite !bind_Ret.
  do 17 (destruct m as [|? m]; try discriminate Hlenm).
  reflexivity.
Qed.

(** A pass of the inner loop whose left operand is [mat] itself: every
    store is read back, rounded, by the stores after it. *)
Lemma rounded_row_alias h matrix mat n lb (c m : buffer) i :
  matrix !! n = Some mat → matrix !! (n + 1) = Some lb →
  lb ≠ mat → h !! lb = Some c → length c = 16 → length m = 16 → i < 4 →
  F32.row matrix mat n i (<[mat := m]> h)
  = Ret (<[mat := fold_left (F32.store_entry c)
                    [i; i + 4; i + 8; i + 12] m]> h).
Proof.
  intros Hla Hlb Hneb Hb Hlenc Hlenm Hi. unfold F32.row.
  rewrite (entry_product _ matrix n mat lb m c i 0 0)
    by (done || lia || by rewrite ?lookup_insert_eq, ?lookup_insert_ne).
  rewrite bind_Ret, rounded_set_insert. replace (i + 0) with i by lia.
  change (<[i := fround (product_entry m c i)]> m)
    with (F32.store_entry c m i).
  set (m1 := F32.store_entry c m i).
  rewrite (entry_product _ matrix n mat lb m1 c i 1 4)
    by (done || lia || by rewrite ?lookup_insert_eq, ?lookup_insert_ne
        || by (unfold m1; rewrite length_rounded_store_entry)).
  rewrite bind_Ret, rounded_set_insert.
  change (<[i + 4 := fround (product_entry m1 c (i + 4))]> m1)
    with (F32.store_entry c m1 (i + 4)).
  set (m2 := F32.store_entry c m1 (i + 4)).
  rewrite (entry_product _ matrix n mat lb m2 c i 2 8)
    by (done || lia || by rewrite ?lookup_insert_eq, ?lookup_insert_ne
        || by (unfold m2, m1; rewrite !length_rounded_store_entry)).
  rewrite bind_Ret, rounded_set_insert.
  change (<[i + 8 := fround (product_entry m2 c (i + 8))]> m2)
    with (F32.store_entry c m2 (i + 8)).
  set (m3 := F32.store_entry c m2 (i + 8)).
  rewrite (entry_product _ matrix n mat lb m3 c i 3 12)
    by (done || lia || by rewrite ?lookup_insert_eq, ?lookup_insert_ne
        || by (unfold m3, m2, m1; rewrite !length_rounded_store_entry)).
  rewrite bind_Ret, rounded_set_insert.
  reflexivity.
Qed.

Lemma rounded_pass_alias h matrix mat n lb (c m : buffer) :
  matrix !! n = Some mat → matrix !! (n + 1) = Some lb →
  lb ≠ mat → h !! lb = Some c → length c = 16 → length m = 16 →
  F32.fold_step mat n (matrix, <[mat := m]> h)
  = Ret (<[n + 1 := mat]> matrix, <[mat := F32.inplace_pass m c]> h).
Proof.
  intros Hla Hlb Hneb Hb Hlenc Hlenm.
  rewrite rounded_fold_step_eq. cbn [for_loop].
  rewrite (rounded_row_alias h matrix mat n lb c m 0) by (done || lia).
  rewrite bind_Ret.
  rewrite (rounded_row_alias h matrix mat n lb c _ 1)
    by (done || lia
        || (cbn [fold_left]; by rewrite !length_rounded_store_entry)).
  rewrite bind_Ret.
  rewrite (rounded_row_alias h matrix mat n lb c _ 2)
    by (done || lia
        || (cbn [fold_left]; by rewrite !length_rounded_store_entry)).
  rewrite bind_Ret.
  rewrite (rounded_row_alias h matrix mat n lb c _ 3)
    by (done || lia
        || (cbn [fold_left]; by rewrite !length_rounded_store_entry)).
  rewrite !bind_Ret. reflexivity.
Qed.

(** The passes from the second on: each multiplies the accumulator in
    place by the next argument. *)
Lemma rounded_passes_alias h mat :
  h !! mat = None →
  ∀ ls cs n matrix (m : buffer),
    F32.stored h ls cs → length m = 16 →
    matrix !! n = Some mat →
    (∀ j, j < length ls → matrix !! (n + 1 + j) = ls !! j) →
    ∃ matrix',
      for_loop n (length ls) (F32.fold_step mat) (matrix, <[mat := m]> h)
      = Ret (matrix', <[mat := fold_left F32.inplace_pass cs m]> h).
Proof.
  intros Hmat ls cs n matrix m Hst. revert n matrix m.
  induction Hst as [|l c ls' cs' [Hl Hlenc] Hst IH];
    intros n matrix m Hlenm Hn Hrest.
  - cbn. eauto.
  - cbn [length for_loop fold_left].
    assert (matrix !! (n + 1) = Some l) as Hnext.
    { rewrite <- (Nat.add_0_r (n + 1)). rewrite Hrest; [done | cbn; lia]. }
    assert (l ≠ mat) as Hne by (intros ->; congruence).
    rewrite (rounded_pass_alias h matrix mat n l c m) by done.
    rewrite bind_Ret. replace (n + 1) with (S n) in * by lia.
    apply IH.
    + by rewrite length_rounded_inplace_pass.
    + apply list_lookup_insert_eq. by eapply lookup_lt_Some.
    + intros j Hj. rewrite list_lookup_insert_ne by lia.
      replace (S n + 1 + j) with (S n + S j) by lia.
      rewrite Hrest; [done | cbn; lia].
Qed.

Lemma addresses_lookup k i :
  i < k → addresses k !! i = Some (Pos.of_succ_nat i).
Proof.
  intros Hi. unfold addresses.
  by rewrite list_lookup_fmap, lookup_seq_lt.
Qed.

Lemma NoDup_addresses k : NoDup (addresses k).
Proof.
  unfold addresses. apply NoDup_fmap_2; [| apply NoDup_seq].
  intros i j. apply SuccNat2Pos.inj.
Qed.

Lemma length_addresses k : length (addresses k) = k.
Proof. unfold addresses. by rewrite length_fmap, length_seq. Qed.

Lemma store_all_lookup (ms : list buffer) i (m : buffer) :
  ms !! i = Some m → store_all ms !! Pos.of_succ_nat i = Some m.
Proof.
  intros Hm. unfold store_all. apply elem_of_list_to_map_1.
  - rewrite fst_zip; [apply NoDup_addresses |].
    by rewrite length_addresses.
  - apply (list_elem_of_lookup_2 _ i). rewrite lookup_zip_with.
    rewrite addresses_lookup by (by eapply lookup_lt_Some).
    cbn. by rewrite Hm.
Qed.

Lemma stored_store_all (ms : list buffer) :
  Forall (λ m, length m = 16) ms →
  F32.stored (store_all ms) (addresses (length ms)) ms.
Proof.
  intros Hlen. apply Forall2_same_length_lookup_2.
  - by rewrite length_addresses.
  - intros i l m Hl Hm.
    rewrite addresses_lookup in Hl by (by eapply lookup_lt_Some).
    injection Hl as <-. split; [by apply store_all_lookup |].
    by eapply (Forall_lookup_1 _ _ _ _ Hlen).
Qed.

(** The call on two or more matrices, by reference. *)
Lemma rounded_multiply_run h l0 l1 ls (a0 a1 : buffer) cs :
  h !! l0 = Some a0 → h !! l1 = Some a1 →
  length a0 = 16 → length a1 = 16 → F32.stored h ls cs →
  F32.multiply (l0 :: l1 :: ls) h
  = Ret (fresh (dom h),
         <[fresh (dom h)
           := fold_left F32.inplace_pass cs (F32.product a0 a1)]> h).
Proof.
  intros H0 H1 Hlen0 Hlen1 Hst.
  assert (∀ l x, h !! l = Some x → l ≠ fresh (dom h)) as Hfresh.
  { intros l x Hl ->. by rewrite fresh_lookup in Hl. }
  unfold F32.multiply. change (guard (l0 :: l1 :: ls) h) with false.
  cbv iota. unfold alloc. cbv zeta. cbv iota beta.
  change (length (l0 :: l1 :: ls) - 1) with (S (length ls)).
  cbn [for_loop].
  rewrite (rounded_pass_distinct h _ _ 0 l0 l1 a0 a1 zeros16) by eauto.
  rewrite bind_Ret. change (<[0 + 1 := ?x]> (l0 :: l1 :: ls))
    with (l0 :: x :: ls).
  destruct (rounded_passes_alias h (fresh (dom h)) (fresh_lookup h) ls cs 1
              (l0 :: fresh (dom h) :: ls) (F32.product a0 a1))
    as [matrix' ->]; done.
Qed.

(** The same call on buffers passed by value. *)
Lemma rounded_multiply_values_run (a0 a1 : buffer) (cs : list buffer) :
  Forall (λ m, length m = 16) (a0 :: a1 :: cs) →
  F32.multiply_values (a0 :: a1 :: cs)
  = Ret (fold_left F32.inplace_pass cs (F32.product a0 a1)).
Proof.
  intros Hlen. pose proof (stored_store_all _ Hlen) as Hst.
  unfold F32.multiply_values.
  change (addresses (length (a0 :: a1 :: cs)))
    with (1%positive :: 2%positive
          :: (Pos.of_succ_nat <$> seq 2 (length cs))) in *.
  inversion Hst as [|? ? ? ? [H0 Hlen0] Hst' ]; subst.
  inversion Hst' as [|? ? ? ? [H1 Hlen1] Hst'' ]; subst.
  rewrite (rounded_multiply_run _ _ _ _ a0 a1 cs) by done.
  rewrite bind_Ret. cbv beta iota. by rewrite lookup_insert_eq.
Qed.

Lemma rounded_multiply_values_two (a b : buffer) :
  length a = 16 → length b = 16 →
  F32.multiply_values [a; b] = Ret (F32.product a b).
Proof.
  intros Hlena Hlenb.
  by rewrite rounded_multiply_values_run by (repeat constructor; done).
Qed.

End RoundedStores.

(** ** IEEE arithmetic with 1 and with zeros *)

Section Doubles.
Local Open Scope Z_scope.

Lemma digits_shift52 m :
  Zpos (digits2_pos (4503599627370496 * m)) = Zpos (digits2_pos m) + 52.
Proof. cbv [Pos.mul]. cbn [digits2_pos]. lia. Qed.

(** A mantissa shifted left by 52 bits, at an exponent lowered by 52,
    rounds back to the double it came from. *)
Lemma round_shifted s m e :
  bounded 53 1024 m e = true →
  binary_round_aux 53 1024 s (Zpos (4503599627370496 * m)) (e + -52)
    loc_Exact
  = S754_finite s m e.
Proof.
  intros Hb. apply andb_true_iff in Hb as [Hc Hle].
  unfold canonical_mantissa in Hc. apply Z.eqb_eq in Hc.
  unfold binary_round_aux, shr_fexp.
  unfold Zdigits2 at 1. rewrite digits_shift52.
  replace (Z.pos (digits2_pos m) + 52 + (e + -52))
    with (Z.pos (digits2_pos m) + e) by lia.
  rewrite Hc. replace (e - (e + -52)) with 52 by lia.
  cbn [shr shr_record_of_loc]. cbv [Pos.mul].
  cbn [SpecFloat.iter_pos shr_1 orb].
  cbn [shr_m loc_of_shr_record round_nearest_even Zdigits2].
  replace (e + -52 + 52) with e by lia.
  rewrite Hc, Z.sub_diag. cbn [shr shr_record_of_loc shr_m].
  replace (1024 - 53) with 971 in * by reflexivity.
  by rewrite Hle.
Qed.

Lemma mul_one_r (x : spec_float) :
  double x → finite x →
  SFmul 53 1024 x (S754_finite false 4503599627370496 (-52)) = x.
Proof.
  intros Hd Hf. destruct x as [[] | | | s m e]; try done. cbn [SFmul].
  rewrite Pos.mul_comm, round_shifted by exact Hd. by destruct s.
Qed.

Lemma mul_one_l (x : spec_float) :
  double x → finite x →
  SFmul 53 1024 (S754_finite false 4503599627370496 (-52)) x = x.
Proof.
  intros Hd Hf. destruct x as [[] | | | s m e]; try done. cbn [SFmul].
  rewrite Z.add_comm, round_shifted by exact Hd. done.
Qed.

Lemma mul_zero_r (x z : spec_float) :
  finite x → is_zero z → is_zero (SFmul 53 1024 x z).
Proof. by destruct x, z. Qed.

Lemma mul_zero_l (x z : spec_float) :
  finite x → is_zero z → is_zero (SFmul 53 1024 z x).
Proof. by destruct x, z. Qed.

Lemma add_zeros (a b : spec_float) :
  is_zero a → is_zero b → is_zero (SFadd 53 1024 a b).
Proof. by destruct a as [[] | | |], b as [[] | | |]. Qed.

Lemma same_number_refl (x : spec_float) : same_number x x.
Proof. by left. Qed.

(** Adding a zero leaves a finite number as it is, up to the sign of a
    zero. *)
Lemma add_zero_same (a x z : spec_float) :
  same_number a x → finite x → is_zero z →
  same_number (SFadd 53 1024 a z) x.
Proof.
  intros [-> | [Ha Hx]] Hf Hz.
  - destruct x as [[] | | |], z as [[] | | |]; try done;
      (by left) || (by right).
  - right. split; [by apply add_zeros | done].
Qed.

(** A zero plus a finite number is that number, up to the sign of a zero. *)
Lemma add_to_zero (a y : spec_float) :
  is_zero a → finite y → same_number (SFadd 53 1024 a y) y.
Proof.
  intros Ha Hy.
  destruct a as [[] | | |], y as [[] | | |]; try done;
    (by left) || (by right).
Qed.

Lemma round_single_same (a x : spec_float) :
  same_number a x → same_number (round_single a) (round_single x).
Proof.
  intros [-> | [Ha Hx]]; [by left |]. right. by destruct a, x.
Qed.

Lemma SFeqb_refl (x : spec_float) : finite x → SFeqb x x = true.
Proof.
  intros Hf. destruct x as [[] | | | [] m e]; try done;
    unfold SFeqb, SFcompare; by rewrite Z.compare_refl, Pos.compare_cont_refl.
Qed.

Lemma same_number_eqb (a x : spec_float) :
  same_number a x → finite x → SFeqb a x = true.
Proof.
  intros [-> | [Ha Hx]] Hf; [by apply SFeqb_refl |]. by destruct a, x.
Qed.

End Doubles.

(** ** setRotate on the model with rounded stores *)

Section RoundedRotation.
Context {N : Number} {R : Rounding N} {H : Host N}.


End RoundedRotation.

(** ** multiply by reference, on the model with rounded stores *)

Section RoundedMultiply.
Context {N : Number} {R : Rounding N}.
Implicit Types (h : heap) (l : loc).

Lemma length_rounded_passes (cs : list buffer) (m : buffer) :
  length (fold_left F32.inplace_pass cs m) = length m.
Proof.
  revert m. induction cs as [|c cs IH]; intros m; [done |].
  cbn [fold_left]. by rewrite IH, length_rounded_inplace_pass.
Qed.

Lemma length_rounded_product (a b : buffer) : length (F32.product a b) = 16.
Proof. reflexivity. Qed.

Lemma rounded_product_lookup (a b : buffer) k :
  k < 16 → F32.product a b !! k = Some (fround (product_entry a b k)).
Proof.
  intros Hk. unfold F32.product.
  by rewrite list_lookup_fmap, lookup_seq_lt.
Qed.

(** X1.  multiply on two 16-element buffers (which may be one and the same
    buffer) returns a new buffer and changes no other: element k of the
    new buffer is the entry k of the product, computed in the numbers of
    the language and rounded once by the store. *)
Theorem rounded_multiply_pair h la lb (a b : buffer) :
  h !! la = Some a → h !! lb = Some b → length a = 16 → length b = 16 →
  F32.multiply [la; lb] h
  = Ret (fresh (dom h), <[fresh (dom h) := F32.product a b]> h)
  ∧ h !! fresh (dom h) = None
  ∧ ∀ k, k < 16 →
      F32.product a b !! k = Some (fround (product_entry a b k)).
Proof.
  intros Ha Hb Hlena Hlenb. split; [| split].
  - by rewrite (rounded_multiply_run h la lb [] a b [])
      by (done || constructor).
  - apply fresh_lookup.
  - apply rounded_product_lookup.
Qed.

(** X2.  multiply on two or more 16-element buffers: the first pass stores
    the product of the first two; every later pass multiplies the new
    buffer by the next matrix in place, one store after the other in the
    order of the loops, each entry computed from the buffer as the stores
    before it left it.  The buffers the heap held before the call are
    unchanged. *)
Theorem rounded_multiply_in_place h l0 l1 ls (a0 a1 : buffer) cs :
  h !! l0 = Some a0 → h !! l1 = Some a1 →
  length a0 = 16 → length a1 = 16 → F32.stored h ls cs →
  let r := fold_left F32.inplace_pass cs (F32.product a0 a1) in
  F32.multiply (l0 :: l1 :: ls) h
  = Ret (fresh (dom h), <[fresh (dom h) := r]> h)
  ∧ length r = 16
  ∧ ∀ l b, h !! l = Some b → <[fresh (dom h) := r]> h !! l = Some b.
Proof.
  intros H0 H1 Hlen0 Hlen1 Hst r. split; [| split].
  - by apply rounded_multiply_run.
  - unfold r. by rewrite length_rounded_passes.
  - intros l b Hl. rewrite lookup_insert_ne; [done |].
    intros <-. by rewrite fresh_lookup in Hl.
Qed.

End RoundedMultiply.

(** ** Multiplication by the identity matrix *)

Section IdentityMultiplication.
Local Existing Instance Float64.

Local Abbreviation d1 := (S754_finite false 4503599627370496 (-52)).
Local Abbreviation d0 := (S754_zero false).
Local Infix "⊗" := (SFmul 53 1024) (at level 40, left associativity).
Local Infix "⊕" := (SFadd 53 1024) (at level 50, left associativity).

Lemma identity_doubles :
  F32.setIdentity
  = [d1; d0; d0; d0;  d0; d1; d0; d0;  d0; d0; d1; d0;  d0; d0; d0; d1].
Proof. vm_compute. reflexivity. Qed.

Section Dots.
Variables x y z w : spec_float.
Hypotheses (Dx : double x) (Dy : double y) (Dz : double z) (Dw : double w).
Hypotheses (Fx : finite x) (Fy : finite y) (Fz : finite z) (Fw : finite w).

Lemma dot_r1 : same_number (x ⊗ d1 ⊕ y ⊗ d0 ⊕ z ⊗ d0 ⊕ w ⊗ d0) x.
Proof using Dx Fx Fy Fz Fw.
  repeat (apply add_zero_same; [| done | by apply mul_zero_r]).
  rewrite mul_one_r by done. apply same_number_refl.
Qed.

Lemma dot_r2 : same_number (x ⊗ d0 ⊕ y ⊗ d1 ⊕ z ⊗ d0 ⊕ w ⊗ d0) y.
Proof using Dy Fx Fy Fz Fw.
  repeat (apply add_zero_same; [| done | by apply mul_zero_r]).
  rewrite mul_one_r by done. apply add_to_zero; [by apply mul_zero_r | done].
Qed.

Lemma dot_r3 : same_number (x ⊗ d0 ⊕ y ⊗ d0 ⊕ z ⊗ d1 ⊕ w ⊗ d0) z.
Proof using Dz Fx Fy Fz Fw.
  apply add_zero_same; [| done | by apply mul_zero_r].
  rewrite mul_one_r by done.
  apply add_to_zero; [| done]. apply add_zeros; by apply mul_zero_r.
Qed.

Lemma dot_r4 : same_number (x ⊗ d0 ⊕ y ⊗ d0 ⊕ z ⊗ d0 ⊕ w ⊗ d1) w.
Proof using Dw Fx Fy Fz Fw.
  rewrite mul_one_r by done.
  apply add_to_zero; [| done]. repeat apply add_zeros; by apply mul_zero_r.
Qed.

Lemma dot_l1 : same_number (d1 ⊗ x ⊕ d0 ⊗ y ⊕ d0 ⊗ z ⊕ d0 ⊗ w) x.
Proof using Dx Fx Fy Fz Fw.
  repeat (apply add_zero_same; [| done | by apply mul_zero_l]).
  rewrite mul_one_l by done. apply same_number_refl.
Qed.

Lemma dot_l2 : same_number (d0 ⊗ x ⊕ d1 ⊗ y ⊕ d0 ⊗ z ⊕ d0 ⊗ w) y.
Proof using Dy Fx Fy Fz Fw.
  repeat (apply add_zero_same; [| done | by apply mul_zero_l]).
  rewrite mul_one_l by done. apply add_to_zero; [by apply mul_zero_l | done].
Qed.

Lemma dot_l3 : same_number (d0 ⊗ x ⊕ d0 ⊗ y ⊕ d1 ⊗ z ⊕ d0 ⊗ w) z.
Proof using Dz Fx Fy Fz Fw.
  apply add_zero_same; [| done | by apply mul_zero_l].
  rewrite mul_one_l by done.
  apply add_to_zero; [| done]. apply add_zeros; by apply mul_zero_l.
Qed.

Lemma dot_l4 : same_number (d0 ⊗ x ⊕ d0 ⊗ y ⊕ d0 ⊗ z ⊕ d1 ⊗ w) w.
Proof using Dw Fx Fy Fz Fw.
  rewrite mul_one_l by done.
  apply add_to_zero; [| done]. repeat apply add_zeros; by apply mul_zero_l.
Qed.

End Dots.

(** Sixteen named elements of a list of length 16, with the facts a
    [Forall] gives about each. *)
Ltac sixteen_doubles m Hlen :=
  do 17 (destruct m as [|? m]; try discriminate Hlen); clear Hlen;
  repeat match goal with
         | H : Forall _ (_ :: _) |- _ =>
             apply Forall_cons in H; destruct H as [? H]
         | H : Forall _ [] |- _ => clear H
         end.

Ltac identity_entry :=
  first [ apply dot_r1 | apply dot_r2 | apply dot_r3 | apply dot_r4
        | apply dot_l1 | apply dot_l2 | apply dot_l3 | apply dot_l4 ];
  assumption.

Ltac identity_entries :=
  repeat (apply List.Forall2_cons;
          [ apply round_single_same; unfold product_entry, elt;
            cbn -[SFmul SFadd round_single]; identity_entry |]);
  apply List.Forall2_nil.

(** The product of a finite matrix by the identity, on either side, as
    multiply stores it: the elements of the matrix rounded to single
    precision, up to the sign of a zero. *)
Lemma product_identity_rounds (m : list spec_float) :
  length m = 16 → Forall double m → Forall finite m →
  same_elements (F32.product m F32.setIdentity) (round_single <$> m)
  ∧ same_elements (F32.product F32.setIdentity m) (round_single <$> m).
Proof.
  intros Hlen Hd Hf. rewrite identity_doubles. sixteen_doubles m Hlen.
  unfold same_elements, F32.product. cbn [fmap list_fmap seq].
  change (@fround Float64 Float64_rounding) with round_single.
  split; identity_entries.
Qed.

Lemma round_single_fixed (m : list spec_float) :
  Forall single m → round_single <$> m = m.
Proof.
  induction 1 as [|x m Hx _ IH]; [done |]. cbn. by rewrite Hx, IH.
Qed.

Lemma same_elements_equal (r m : list spec_float) :
  same_elements r m → Forall finite m → equal_elements r m.
Proof.
  intros Hsame. induction Hsame as [|a x r m Hax _ IH]; intros Hf;
    [constructor |].
  apply Forall_cons in Hf as [Hx Hf]. constructor; [| by apply IH].
  split; [done | by apply same_number_eqb].
Qed.

(** C8, as the code has it.  For every 16-element matrix M whose elements
    are finite single-precision numbers, multiply(M, setIdentity()) and
    multiply(setIdentity(), M) return elements equal to those of M under
    [==]: the same numbers, except that a zero may come back with the other
    sign.  The same holds in any heap for the buffers passed by
    reference. *)
Theorem multiply_identity_single (M : list spec_float) :
  length M = 16 → Forall double M → Forall finite M → Forall single M →
  let R := F32.product M F32.setIdentity in
  let L := F32.product F32.setIdentity M in
  F32.multiply_values [M; F32.setIdentity] = Ret R
  ∧ F32.multiply_values [F32.setIdentity; M] = Ret L
  ∧ (∀ (h : heap) (lm li : loc),
       h !! lm = Some M → h !! li = Some F32.setIdentity →
       F32.multiply [lm; li] h
       = Ret (fresh (dom h), <[fresh (dom h) := R]> h)
       ∧ F32.multiply [li; lm] h
         = Ret (fresh (dom h), <[fresh (dom h) := L]> h))
  ∧ equal_elements R M ∧ equal_elements L M.
Proof.
  intros Hlen Hd Hf Hs R L.
  destruct (product_identity_rounds M Hlen Hd Hf) as [HR HL].
  rewrite round_single_fixed in HR, HL by done.
  split; [by apply rounded_multiply_values_two |].
  split; [by apply rounded_multiply_values_two |].
  split.
  - intros h lm li Hm Hi. split.
    + by rewrite (rounded_multiply_run h lm li [] M F32.setIdentity [])
        by (done || constructor).
    + by rewrite (rounded_multiply_run h li lm [] F32.setIdentity M [])
        by (done || constructor).
  - split; by apply same_elements_equal.
Qed.


(** A call of multiply on two matrices passed by value. *)
Ltac run_pair := etrans; [by apply rounded_multiply_values_two |].

(** *** The last column and the zero matrix *)

Lemma dot_last (z1 z2 z3 x y z w : spec_float) :
  is_zero z1 → is_zero z2 → is_zero z3 →
  finite x → finite y → finite z → double w → finite w →
  same_number (z1 ⊗ x ⊕ z2 ⊗ y ⊕ z3 ⊗ z ⊕ d1 ⊗ w) w.
Proof.
  intros. rewrite mul_one_l by done.
  apply add_to_zero; [| done]. repeat apply add_zeros; by apply mul_zero_l.
Qed.



Lemma round_single_zero (e : spec_float) :
  is_zero e → is_zero (round_single e).
Proof. by destruct e. Qed.

Lemma round_single_same_zero (e z : spec_float) :
  same_number e z → is_zero z → is_zero (round_single e).
Proof.
  intros [-> | [He _]] Hz; by apply round_single_zero.
Qed.

Lemma round_single_same_one (e : spec_float) :
  same_number e d1 → round_single e = d1.
Proof.
  intros [-> | [_ []]]. vm_compute. reflexivity.
Qed.

(** C8 at the translation by (2, 3, 4). *)
Lemma multiply_identity_single_witness :
  let M : list spec_float := F32.setTranslate (fz 2) (fz 3) (fz 4) in
  length M = 16 ∧ Forall double M ∧ Forall finite M ∧ Forall single M
  ∧ F32.multiply_values [M; F32.setIdentity]
    = Ret (F32.product M F32.setIdentity)
  ∧ F32.multiply_values [F32.setIdentity; M]
    = Ret (F32.product F32.setIdentity M)
  ∧ equal_elements (F32.product M F32.setIdentity) M
  ∧ equal_elements (F32.product F32.setIdentity M) M.
Proof.
  intros M.
  assert (length M = 16) as Hlen by reflexivity.
  assert (Forall double M) as Hd by (vm_compute; repeat constructor).
  assert (Forall finite M) as Hf by (vm_compute; repeat constructor).
  assert (Forall single M) as Hs.
  { repeat (apply List.Forall_cons; [vm_compute; reflexivity |]).
    apply List.Forall_nil. }
  destruct (multiply_identity_single M Hlen Hd Hf Hs)
    as (HR & HL & _ & HeR & HeL).
  split; [exact Hlen |]. split; [exact Hd |]. split; [exact Hf |].
  split; [exact Hs |]. split; [exact HR |]. split; [exact HL |].
  split; [exact HeR | exact HeL].
Defined.

(** C8 as stated fails at the matrix setScale(1e39, 1, 1) returns: its
    first element is stored as Infinity, and Infinity * 0 is NaN, so the
    products with the identity hold NaN where the matrix holds 0. *)
Lemma multiply_identity_infinity :
  let inf := S754_infinity false in
  let nan := S754_nan in
  let M : list spec_float := F32.setScale (fz (10 ^ 39)) (fz 1) (fz 1) in
  M = [inf; d0; d0; d0;  d0; d1; d0; d0;  d0; d0; d1; d0;  d0; d0; d0; d1]
  ∧ F32.multiply_values [M; F32.setIdentity]
    = Ret [inf; d0; d0; d0;  nan; d1; d0; d0;
           nan; d0; d1; d0;  nan; d0; d0; d1]
  ∧ F32.multiply_values [F32.setIdentity; M]
    = Ret [inf; nan; nan; nan;  d0; d1; d0; d0;
           d0; d0; d1; d0;  d0; d0; d0; d1]
  ∧ F32.multiply_values [M; F32.setIdentity] ≠ Ret M
  ∧ F32.multiply_values [F32.setIdentity; M] ≠ Ret M
  ∧ SFeqb nan d0 = false.
Proof.
  intros inf nan M.
  assert (F32.multiply_values [M; F32.setIdentity]
          = Ret (F32.product M F32.setIdentity)) as HR
    by (by apply rounded_multiply_values_two).
  assert (F32.multiply_values [F32.setIdentity; M]
          = Ret (F32.product F32.setIdentity M)) as HL
    by (by apply rounded_multiply_values_two).
  rewrite HR, HL.
  split; [vm_compute; reflexivity |].
  split; [vm_compute; reflexivity |].
  split; [vm_compute; reflexivity |].
  split; [vm_compute; discriminate |].
  split; [vm_compute; discriminate |].
  vm_compute. reflexivity.
Qed.



(** X3.  The last column of an affine matrix survives multiply: when both
    matrices hold zeros at the indices 3, 7 and 11 and 1 at the index 15,
    and the elements of the right one are finite, so does the product the
    call returns. *)
Theorem rounded_product_affine (a b : list spec_float) :
  length a = 16 → length b = 16 → Forall double b → Forall finite b →
  affine_doubles a → affine_doubles b →
  F32.multiply_values [a; b] = Ret (F32.product a b)
  ∧ affine_doubles (F32.product a b).
Proof.
  intros Hlena Hlenb Hd Hf Ha Hb.
  split; [by apply rounded_multiply_values_two |].
  do 17 (destruct a as [|? a]; try discriminate Hlena); clear Hlena.
  sixteen_doubles b Hlenb.
  destruct Ha as (Ha3 & Ha7 & Ha11 & Ha15).
  destruct Hb as (Hb3 & Hb7 & Hb11 & Hb15).
  cbn [nth] in Ha3, Ha7, Ha11, Ha15, Hb3, Hb7, Hb11, Hb15.
  subst. unfold affine_doubles, F32.product.
  cbn [fmap list_fmap seq nth].
  change (@fround Float64 Float64_rounding) with round_single.
  unfold product_entry, elt. cbn -[SFmul SFadd round_single].
  repeat split;
    solve [ eapply round_single_same_zero; [by apply dot_last | done]
          | apply round_single_same_one; by apply dot_last ].
Qed.

Lemma rounded_product_affine_witness :
  let a : list spec_float := F32.setTranslate (fz 2) (fz 3) (fz 4) in
  let b : list spec_float := F32.setScale (fz 5) (fz 6) (fz 7) in
  length a = 16 ∧ length b = 16 ∧ Forall double b ∧ Forall finite b
  ∧ affine_doubles a ∧ affine_doubles b
  ∧ F32.multiply_values [a; b] = Ret (F32.product a b)
  ∧ affine_doubles (F32.product a b).
Proof.
  intros a b.
  assert (length a = 16) as Hlena by reflexivity.
  assert (length b = 16) as Hlenb by reflexivity.
  assert (Forall double b) as Hd by (vm_compute; repeat constructor).
  assert (Forall finite b) as Hf by (vm_compute; repeat constructor).
  assert (affine_doubles a) as Ha by (vm_compute; repeat split).
  assert (affine_doubles b) as Hb by (vm_compute; repeat split).
  destruct (rounded_product_affine a b Hlena Hlenb Hd Hf Ha Hb) as [Hrun Hab].
  repeat (split; [assumption |]). exact Hab.
Defined.



(** X5.  Whatever the arguments (NaN and the infinities included), the
    matrices setIdentity, setTranslate and setScale return hold zeros at
    the indices 3, 7 and 11 and 1 at the index 15. *)
Theorem rounded_constructors_affine (x y z : spec_float) :
  affine_doubles F32.setIdentity
  ∧ affine_doubles (F32.setTranslate x y z)
  ∧ affine_doubles (F32.setScale x y z).
Proof. repeat split. Qed.

(** X6.  Stores round: multiply(setTranslate(16777216, 0, 0),
    setTranslate(1, 0, 0)) returns the translation by 16777216, not by
    16777217, which no single-precision number is. *)
Theorem rounded_translations_lose_one :
  let a : list spec_float := F32.setTranslate (fz 16777216) (fz 0) (fz 0) in
  let b : list spec_float := F32.setTranslate (fz 1) (fz 0) (fz 0) in
  F32.multiply_values [a; b] = Ret a
  ∧ nth 12 a d0 = fz 16777216
  ∧ product_entry a b 12 = fz 16777217
  ∧ round_single (fz 16777217) = fz 16777216.
Proof.
  intros a b. split; [run_pair; vm_compute; reflexivity |].
  repeat split; vm_compute; reflexivity.
Qed.

(** X7.  The aliasing of the third pass on doubles: multiply(I, I, C) with
    C = [2,0,0,0, 3,1,0,0, 0,0,1,0, 0,0,0,1] returns 6 at the index 4. *)
Theorem rounded_multiply_three_aliasing :
  let I : list spec_float := F32.setIdentity in
  let C : list spec_float :=
    fz <$> [2; 0; 0; 0; 3; 1; 0; 0; 0; 0; 1; 0; 0; 0; 0; 1]%Z in
  F32.multiply_values [I; I; C]
  = Ret (fz <$> [2; 0; 0; 0; 6; 1; 0; 0; 0; 0; 1; 0; 0; 0; 0; 1]%Z)
  ∧ F32.product (F32.product I I) C = C.
Proof.
  intros I C.
  split; [| vm_compute; reflexivity].
  etrans; [apply rounded_multiply_values_run; repeat constructor |].
  vm_compute. reflexivity.
Qed.

(** X8.  A zero may come back with the other sign: setScale(-0, 1, 1)
    holds -0 at the index 0, and its product with the identity, on either
    side, holds +0 there; the two are equal under [==]. *)
Theorem rounded_identity_drops_zero_sign :
  let M : list spec_float := F32.setScale (S754_zero true) (fz 1) (fz 1) in
  let Z : list spec_float := F32.setScale (S754_zero false) (fz 1) (fz 1) in
  nth 0 M d1 = S754_zero true
  ∧ F32.multiply_values [M; F32.setIdentity] = Ret Z
  ∧ F32.multiply_values [F32.setIdentity; M] = Ret Z
  ∧ nth 0 Z d1 = S754_zero false
  ∧ SFeqb (S754_zero false) (S754_zero true) = true.
Proof.
  intros M Z. split; [vm_compute; reflexivity |].
  split; [run_pair; vm_compute; reflexivity |].
  split; [run_pair; vm_compute; reflexivity |].
  split; vm_compute; reflexivity.
Qed.

Lemma rounded_multiply_pair_witness :
  let M : list spec_float := F32.setTranslate (fz 2) (fz 3) (fz 4) in
  let h : heap := {[ 1%positive := M ]} in
  h !! 1%positive = Some M ∧ length M = 16
  ∧ F32.multiply [1%positive; 1%positive] h
    = Ret (fresh (dom h), <[fresh (dom h) := F32.product M M]> h).
Proof.
  intros M h.
  assert (h !! 1%positive = Some M) as Hl by reflexivity.
  assert (length M = 16) as Hlen by reflexivity.
  split; [exact Hl |]. split; [exact Hlen |].
  exact (proj1 (rounded_multiply_pair h 1%positive 1%positive M M
                  Hl Hl Hlen Hlen)).
Defined.

Lemma rounded_multiply_in_place_witness :
  let I : list spec_float := F32.setIdentity in
  let C : list spec_float :=
    fz <$> [2; 0; 0; 0; 3; 1; 0; 0; 0; 0; 1; 0; 0; 0; 0; 1]%Z in
  let h : heap := store_all [I; I; C] in
  h !! 1%positive = Some I ∧ h !! 2%positive = Some I
  ∧ length I = 16 ∧ F32.stored h [3%positive] [C]
  ∧ F32.multiply [1%positive; 2%positive; 3%positive] h
    = Ret (fresh (dom h),
           <[fresh (dom h) := F32.inplace_pass (F32.product I I) C]> h).
Proof.
  intros I C h.
  assert (h !! 1%positive = Some I) as H1 by reflexivity.
  assert (h !! 2%positive = Some I) as H2 by reflexivity.
  assert (length I = 16) as Hlen by reflexivity.
  assert (F32.stored h [3%positive] [C]) as Hst.
  { repeat constructor. }
  split; [exact H1 |]. split; [exact H2 |]. split; [exact Hlen |].
  split; [exact Hst |].
  exact (proj1 (rounded_multiply_in_place h 1%positive 2%positive
                  [3%positive] I I [C] H1 H2 Hlen Hlen Hst)).
Defined.

End IdentityMultiplication.
